(** * phonetic-ts: a shallow embedding of [src/index.ts]

    The generator builds a pronounceable word out of fragments of three
    tables, driven by a numeric state that is re-hashed after every
    fragment, and finishes with a fixed list of regular-expression
    replacements.

    Conventions of the embedding:
    - a JavaScript string is a [string] (its characters are the bytes of
      its UTF-8 text; every string the generator builds is ASCII);
    - the numeric state is a sum of unsigned 32-bit reads, an [N];
    - the numeric options may be any integer, a [Z]; an absent option is
      [None];
    - [capFirst] is tested with [hasOwnProperty]: an own property whose
      value is [undefined] is [Some Undefined], not [None];
    - [getDerivative] and [String(n)] are modelled on the integers below
      [2^53], [toUpperCase] and the patterns on ASCII texts; the
      statements that leave these ranges to their hypotheses say so;
    - a call that may throw, or a loop that may not end, returns an
      [outcome]; the loop of [generate] takes a bound [fuel] on the number
      of its tests and is [OutOfFuel] when the bound is reached;
    - [Math.random] is a parameter [rand] that gives the byte drawn at each
      turn of [randomBytes]. *)

From Stdlib Require Import NArith ZArith List String Ascii Bool Lia.
From Stdlib Require Import DecimalString.
Import ListNotations.

Local Open Scope string_scope.

(** ** Outcomes: return, exception, or a loop that ran out of fuel *)

Inductive outcome (A : Type) : Type :=
| Ret (a : A)
| Throw (msg : string)
| OutOfFuel.

Arguments Ret {A} a.
Arguments Throw {A} msg.
Arguments OutOfFuel {A}.

Definition bind {A B : Type} (m : outcome A) (f : A -> outcome B) : outcome B :=
  match m with
  | Ret a => f a
  | Throw msg => Throw msg
  | OutOfFuel => OutOfFuel
  end.

Notation "x <- m ;; k" := (bind m (fun x => k))
  (at level 61, m at next level, right associativity).

(** [returns m Q]: the computation returns, with a value that satisfies [Q]. *)
Definition returns {A : Type} (m : outcome A) (Q : A -> Prop) : Prop :=
  match m with
  | Ret a => Q a
  | _ => False
  end.

(** ** The digest primitive *)

(** Modelled from the spec: the [Md5] class of the npm package [ts-md5]
    (imported by [src/index.ts], not part of the repository), of which the
    spec says "semantics of MD5".  The model follows RFC 1321: padding,
    little-endian words, four rounds of sixteen steps, and the digest as the
    sixteen bytes of the four state words, low byte first. *)
Module Md5.

Local Open Scope N_scope.

Definition add32 (a b : N) : N := (a + b) mod 2 ^ 32.

Definition not32 (x : N) : N := N.lxor x 0xFFFFFFFF.

Definition rotl32 (x c : N) : N :=
  N.lor (N.shiftl x c mod 2 ^ 32) (N.shiftr x (32 - c)).

Definition shifts : list N :=
  [ 7; 12; 17; 22; 7; 12; 17; 22; 7; 12; 17; 22; 7; 12; 17; 22;
    5; 9; 14; 20; 5; 9; 14; 20; 5; 9; 14; 20; 5; 9; 14; 20;
    4; 11; 16; 23; 4; 11; 16; 23; 4; 11; 16; 23; 4; 11; 16; 23;
    6; 10; 15; 21; 6; 10; 15; 21; 6; 10; 15; 21; 6; 10; 15; 21 ].

(** [K i = floor (2^32 * |sin (i + 1)|)]. *)
Definition K : list N :=
  [ 0xd76aa478; 0xe8c7b756; 0x242070db; 0xc1bdceee;
    0xf57c0faf; 0x4787c62a; 0xa8304613; 0xfd469501;
    0x698098d8; 0x8b44f7af; 0xffff5bb1; 0x895cd7be;
    0x6b901122; 0xfd987193; 0xa679438e; 0x49b40821;
    0xf61e2562; 0xc040b340; 0x265e5a51; 0xe9b6c7aa;
    0xd62f105d; 0x02441453; 0xd8a1e681; 0xe7d3fbc8;
    0x21e1cde6; 0xc33707d6; 0xf4d50d87; 0x455a14ed;
    0xa9e3e905; 0xfcefa3f8; 0x676f02d9; 0x8d2a4c8a;
    0xfffa3942; 0x8771f681; 0x6d9d6122; 0xfde5380c;
    0xa4beea44; 0x4bdecfa9; 0xf6bb4b60; 0xbebfbc70;
    0x289b7ec6; 0xeaa127fa; 0xd4ef3085; 0x04881d05;
    0xd9d4d039; 0xe6db99e5; 0x1fa27cf8; 0xc4ac5665;
    0xf4292244; 0x432aff97; 0xab9423a7; 0xfc93a039;
    0x655b59c3; 0x8f0ccc92; 0xffeff47d; 0x85845dd1;
    0x6fa87e4f; 0xfe2ce6e0; 0xa3014314; 0x4e0811a1;
    0xf7537e82; 0xbd3af235; 0x2ad7d2bb; 0xeb86d391 ].

(** The four 32-bit state words. *)
Record state : Type := mkState { sA : N; sB : N; sC : N; sD : N }.

Definition init : state :=
  mkState 0x67452301 0xefcdab89 0x98badcfe 0x10325476.

(** One byte per character. *)
Fixpoint bytes_of_string (s : string) : list N :=
  match s with
  | EmptyString => []
  | String c s' => N_of_ascii c :: bytes_of_string s'
  end.

(** [n] as [k] bytes, low byte first. *)
Fixpoint le_bytes (k : nat) (n : N) : list N :=
  match k with
  | O => []
  | S k' => n mod 256 :: le_bytes k' (n / 256)
  end.

(** A one bit, zeros up to 56 modulo 64, then the bit length on 8 bytes. *)
Definition pad (msg : list N) : list N :=
  let len := List.length msg in
  let zeros := ((119 - len mod 64) mod 64)%nat in
  msg ++ [0x80] ++ repeat 0 zeros
      ++ le_bytes 8 ((8 * N.of_nat len) mod 2 ^ 64).

Fixpoint words_le (bs : list N) : list N :=
  match bs with
  | b0 :: b1 :: b2 :: b3 :: rest =>
      (b0 + 256 * b1 + 65536 * b2 + 16777216 * b3) :: words_le rest
  | _ => []
  end.

Definition step (M : list N) (st : state) (i : nat) : state :=
  let '(mkState a b c d) := st in
  let '(f, g) :=
    match (i / 16)%nat with
    | 0%nat => (N.lor (N.land b c) (N.land (not32 b) d), i)
    | 1%nat => (N.lor (N.land d b) (N.land (not32 d) c), ((5 * i + 1) mod 16)%nat)
    | 2%nat => (N.lxor b (N.lxor c d), ((3 * i + 5) mod 16)%nat)
    | _ => (N.lxor c (N.lor b (not32 d)), ((7 * i) mod 16)%nat)
    end in
  let f' := add32 (add32 (add32 f a) (nth i K 0)) (nth g M 0) in
  mkState d (add32 b (rotl32 f' (nth i shifts 0))) b c.

Definition block (st : state) (bs : list N) : state :=
  let st' := fold_left (step (words_le bs)) (seq 0 64) st in
  mkState (add32 (sA st) (sA st')) (add32 (sB st) (sB st'))
          (add32 (sC st) (sC st')) (add32 (sD st) (sD st')).

(** The message is consumed in blocks of 64 bytes; [n] bounds their
    number. *)
Fixpoint blocks (n : nat) (st : state) (bs : list N) : state :=
  match n with
  | O => st
  | S n' =>
      match bs with
      | [] => st
      | _ => blocks n' (block st (firstn 64 bs)) (skipn 64 bs)
      end
  end.

(** [appendStr] on a fresh instance followed by the padding of [end]. *)
Definition appendStr (s : string) : state :=
  let bs := pad (bytes_of_string s) in
  blocks (List.length bs) init bs.

(** The sixteen digest bytes. *)
Definition digest (st : state) : list N :=
  le_bytes 4 (sA st) ++ le_bytes 4 (sB st)
    ++ le_bytes 4 (sC st) ++ le_bytes 4 (sD st).

Definition hexdigit (n : N) : ascii :=
  ascii_of_N (if n <? 10 then 48 + n else 87 + n).

Fixpoint hex (bs : list N) : string :=
  match bs with
  | [] => ""
  | b :: bs' => String (hexdigit (b / 16)) (String (hexdigit (b mod 16)) (hex bs'))
  end.

(** [end(raw)] returns the state words when [raw] is set and the
    hexadecimal text of the digest otherwise. *)
Inductive end_result : Type :=
| HexString (s : string)
| RawState (words : list N).

Definition end_ (raw : bool) (st : state) : end_result :=
  if raw then RawState [sA st; sB st; sC st; sD st]
  else HexString (hex (digest st)).

End Md5.

(** Modelled from the spec: the [Buffer] class of the npm package [buffer]
    (imported by [src/index.ts], not part of the repository): a byte array
    with hexadecimal decoding, checked reads and writes and base64
    encoding. *)
Module Buffer.

Local Open Scope N_scope.

Definition hexval (c : ascii) : option N :=
  let n := N_of_ascii c in
  if (48 <=? n) && (n <=? 57) then Some (n - 48)
  else if (97 <=? n) && (n <=? 102) then Some (n - 87)
  else if (65 <=? n) && (n <=? 70) then Some (n - 55)
  else None.

(** [Buffer.from(s, 'hex')]: one byte per pair of hexadecimal digits, up
    to the first pair that is not one. *)
Fixpoint from_hex (s : string) : list N :=
  match s with
  | String c1 (String c2 rest) =>
      match hexval c1, hexval c2 with
      | Some h, Some l => (16 * h + l) :: from_hex rest
      | _, _ => []
      end
  | _ => []
  end.

(** [buf.readUInt32LE(offset)] throws unless four bytes are there. *)
Definition readUInt32LE (buf : list N) (offset : nat) : outcome N :=
  match skipn offset buf with
  | b0 :: b1 :: b2 :: b3 :: _ =>
      Ret (b0 + b1 * 2 ^ 8 + b2 * 2 ^ 16 + b3 * 2 ^ 24)
  | _ => Throw "RangeError"
  end.

Definition alloc (size : nat) : list N := repeat 0 size.

Fixpoint set_byte (buf : list N) (offset : nat) (value : N) : list N :=
  match buf, offset with
  | [], _ => []
  | _ :: rest, O => value :: rest
  | b :: rest, S o => b :: set_byte rest o value
  end.

(** [buf.writeUInt8(value, offset)] throws on a value that is not a byte
    and on an offset outside the buffer. *)
Definition writeUInt8 (buf : list N) (value : N) (offset : nat)
  : outcome (list N) :=
  if (value <=? 255) && (offset <? List.length buf)%nat
  then Ret (set_byte buf offset value)
  else Throw "RangeError".

Definition base64_alphabet : string :=
  "ABCDEFGHIJKLMNOPQRSTUVWXYZabcdefghijklmnopqrstuvwxyz0123456789+/".

Definition b64 (n : N) : ascii :=
  match get (N.to_nat n) base64_alphabet with
  | Some c => c
  | None => "="%char
  end.

(** [buf.toString('base64')]. *)
Fixpoint toString_base64 (buf : list N) : string :=
  match buf with
  | b0 :: b1 :: b2 :: rest =>
      String (b64 (b0 / 4))
        (String (b64 (b0 mod 4 * 16 + b1 / 16))
           (String (b64 (b1 mod 16 * 4 + b2 / 64))
              (String (b64 (b2 mod 64)) (toString_base64 rest))))
  | [b0; b1] =>
      String (b64 (b0 / 4))
        (String (b64 (b0 mod 4 * 16 + b1 / 16))
           (String (b64 (b1 mod 16 * 4)) "="))
  | [b0] =>
      String (b64 (b0 / 4)) (String (b64 (b0 mod 4 * 16)) "==")
  | [] => ""
  end.

End Buffer.

(** ** JavaScript operators used by the source *)

(** [a || b] on a number that may be absent: zero is falsy. *)
Definition or_number (a : option Z) (b : Z) : Z :=
  match a with
  | Some v => if (v =? 0)%Z then b else v
  | None => b
  end.

(** [a ?? b]. *)
Definition nullish {A : Type} (a : option A) (b : A) : A :=
  match a with
  | Some v => v
  | None => b
  end.

(** [a % b] on integers: the sign of the dividend, [NaN] ([None]) when [b]
    is zero. *)
Definition js_rem (a b : Z) : option Z :=
  if (b =? 0)%Z then None else Some (Z.rem a b).

(** [x == 0] and [x > 0]; both are false on [NaN]. *)
Definition is_zero (x : option Z) : bool :=
  match x with
  | Some v => (v =? 0)%Z
  | None => false
  end.

Definition is_positive (x : option Z) : bool :=
  match x with
  | Some v => (0 <? v)%Z
  | None => false
  end.

(** [arr[i]]: [undefined] ([None]) outside the array and on [NaN]. *)
Definition subscript (arr : list string) (i : option Z) : option string :=
  match i with
  | Some v => if (v <? 0)%Z then None else nth_error arr (Z.to_nat v)
  | None => None
  end.

(** The text of a value in a string concatenation. *)
Definition text_of (v : option string) : string :=
  match v with
  | Some s => s
  | None => "undefined"
  end.

(** The decimal text of a non-negative integer, as [String(n)] gives it
    for an integer below [10^21]; the numeric state, the one number whose
    text the program takes, stays below [2^35]. *)
Definition string_of_number (n : N) : string :=
  NilZero.string_of_uint (N.to_uint n).

(** [c.toUpperCase()] on one ASCII character: the letters a to z lose 32,
    every other ASCII character is kept.  Characters above 127 (on which
    JS can change the number of characters, as for the sharp s) are
    outside the model; every word of the program is an ASCII text. *)
Definition toUpperCase (c : ascii) : ascii :=
  let n := N_of_ascii c in
  if (97 <=? n)%N && (n <=? 122)%N then ascii_of_N (n - 32) else c.

(** ** The data of [src/index.ts] *)

Local Open Scope Z_scope.

(** The value of an own [capFirst] property of the options object.  The
    field is read by [hasOwnProperty] (line 271), which keeps an own
    property whose value is [undefined]; so, unlike the other fields,
    [capFirst] distinguishes an absent property ([None]) from a property
    present with the value [undefined] ([Some Undefined]). *)
Inductive boolOrUndefined : Type :=
  | Boolean (b : bool)
  | Undefined.

Record PhoneticOptions : Type := mkOptions {
  syllables : option Z;
  seed : option string;
  phoneticSimplicity : option Z;
  compoundSimplicity : option Z;
  capFirst : option boolOrUndefined
}.

Record PhoneticWordObject : Type := mkWordObj {
  numeric : N;
  lastSkippedPre : bool;
  lastSkippedPost : bool;
  word : string;
  opts : PhoneticOptions
}.

Definition set_numeric (n : N) (w : PhoneticWordObject) : PhoneticWordObject :=
  mkWordObj n (lastSkippedPre w) (lastSkippedPost w) (word w) (opts w).

Definition set_lastSkippedPre (b : bool) (w : PhoneticWordObject) : PhoneticWordObject :=
  mkWordObj (numeric w) b (lastSkippedPost w) (word w) (opts w).

Definition set_lastSkippedPost (b : bool) (w : PhoneticWordObject) : PhoneticWordObject :=
  mkWordObj (numeric w) (lastSkippedPre w) b (word w) (opts w).

Definition set_word (s : string) (w : PhoneticWordObject) : PhoneticWordObject :=
  mkWordObj (numeric w) (lastSkippedPre w) (lastSkippedPost w) s (opts w).

(** Phonetics that sound best before a vowel. *)
Definition PHONETIC_PRE : list string :=
  [ "b"; "c"; "d"; "f"; "g"; "h"; "j"; "k"; "l"; "m"; "n"; "p"; "qu"; "r";
    "s"; "t";
    "bl"; "ch"; "cl"; "cr"; "dr"; "fl"; "fr"; "gl"; "gr"; "kl"; "kr"; "ph";
    "pr"; "pl"; "sc"; "sh"; "sl"; "sn"; "sr"; "st"; "str"; "sw"; "th"; "tr";
    "br"; "v"; "w"; "y"; "z" ].

Definition PHONETIC_PRE_SIMPLE_LENGTH : Z := 16.

(** Vowel sound phonetics. *)
Definition PHONETIC_MID : list string :=
  [ "a"; "e"; "i"; "o"; "u";
    "ee"; "ie"; "oo"; "ou"; "ue" ].

Definition PHONETIC_MID_SIMPLE_LENGTH : Z := 5.

(** Phonetics that sound best after a vowel. *)
Definition PHONETIC_POST : list string :=
  [ "b"; "d"; "f"; "g"; "k"; "l"; "m"; "n"; "p"; "r"; "s"; "t"; "y";
    "ch"; "ck"; "ln"; "nk"; "ng"; "rn"; "sh"; "sk"; "st"; "th"; "x"; "z" ].

Definition PHONETIC_POST_SIMPLE_LENGTH : Z := 13.

(** ** getDerivative *)

(** The loop [while (num != 0) { derivative += num % 7; num = floor(num / 7) }];
    [fuel] bounds the number of turns.  [num] is a non-negative integer
    below [2^53]: there [num % 7] and [Math.floor(num / 7)] on doubles are
    the remainder and the quotient of the integers.  The program calls
    [getDerivative] on the numeric state only, which stays below [2^35]. *)
Fixpoint getDerivative_loop (fuel : nat) (derivative num : N) : N :=
  match fuel with
  | O => derivative
  | S fuel' =>
      if (num =? 0)%N then derivative
      else getDerivative_loop fuel' (derivative + num mod 7)%N (num / 7)%N
  end.

(** A number of [k] binary digits is zero after [k] divisions by 7. *)
Definition getDerivative (num : N) : N :=
  getDerivative_loop (N.to_nat (N.size num)) 1%N num.

(** ** getNumericHash *)

(** The argument is a [string | number]; [data + '-Phonetic'] takes its
    text. *)
Inductive hashData : Type :=
| DataString (s : string)
| DataNumber (n : N).

Definition data_text (data : hashData) : string :=
  match data with
  | DataString s => s
  | DataNumber n => string_of_number n
  end.

Definition getNumericHash (data : hashData) : outcome N :=
  let hash := Md5.appendStr (data_text data ++ "-Phonetic") in
  match Md5.end_ false hash with
  | Md5.HexString hex =>
      let buf := Buffer.from_hex hex in
      fold_left
        (fun acc i =>
           numeric <- acc ;;
           v <- Buffer.readUInt32LE buf i ;;
           Ret (numeric + v)%N)
        [0; 4; 8; 12]%nat (Ret 0%N)
  | Md5.RawState _ => Throw "hex is not a string"
  end.

(** The same number in the words of the specification: the sum of the four
    little-endian 32-bit words at the byte offsets 0, 4, 8 and 12 of the
    digest of the text of the input followed by the salt. *)
Definition word32_le (bytes : list N) (offset : nat) : N :=
  (nth offset bytes 0 + 2 ^ 8 * nth (offset + 1) bytes 0
   + 2 ^ 16 * nth (offset + 2) bytes 0 + 2 ^ 24 * nth (offset + 3) bytes 0)%N.

Definition numericHash (input : hashData) : N :=
  let d := Md5.digest (Md5.appendStr (data_text input ++ "-Phonetic")) in
  (word32_le d 0 + word32_le d 4 + word32_le d 8 + word32_le d 12)%N.

(** ** getNextPhonetic *)

(** The local [cap]: the simple prefix or the whole set. *)
Definition phoneticCap (phoneticSet : list string) (simpleCap : Z)
    (wordObj : PhoneticWordObject) (forceSimple : bool) : Z :=
  let deriv := getDerivative (numeric wordObj) in
  let simple :=
    is_positive
      (js_rem (Z.of_N (numeric wordObj + deriv))
              (or_number (phoneticSimplicity (opts wordObj)) 5)) in
  if simple || forceSimple then simpleCap
  else Z.of_nat (List.length phoneticSet).

(** The subscript [wordObj.numeric % cap]. *)
Definition phoneticIndex (phoneticSet : list string) (simpleCap : Z)
    (wordObj : PhoneticWordObject) (forceSimple : bool) : option Z :=
  js_rem (Z.of_N (numeric wordObj))
         (phoneticCap phoneticSet simpleCap wordObj forceSimple).

(** Returns the chosen phonetic ([None] is [undefined]) and the word object
    with its numeric advanced; the word itself is left to the caller. *)
Definition getNextPhonetic (phoneticSet : list string) (simpleCap : Z)
    (wordObj : PhoneticWordObject) (forceSimple : bool)
  : outcome (option string * PhoneticWordObject) :=
  let phonetic :=
    subscript phoneticSet (phoneticIndex phoneticSet simpleCap wordObj forceSimple) in
  numeric' <-
    getNumericHash
      (DataString (string_of_number (numeric wordObj) ++ word wordObj)) ;;
  Ret (phonetic, set_numeric numeric' wordObj).

(** ** addSyllable *)

(** [wordObj.word += getNextPhonetic(set, cap, wordObj, forceSimple)]: the
    left operand is read before the call. *)
Definition appendNextPhonetic (phoneticSet : list string) (simpleCap : Z)
    (wordObj : PhoneticWordObject) (forceSimple : bool)
  : outcome PhoneticWordObject :=
  let old := word wordObj in
  r <- getNextPhonetic phoneticSet simpleCap wordObj forceSimple ;;
  Ret (set_word (old ++ text_of (fst r)) (snd r)).

Definition addSyllable (wordObj : PhoneticWordObject) : outcome PhoneticWordObject :=
  let deriv := getDerivative (numeric wordObj) in
  let compound :=
    is_zero (js_rem (Z.of_N deriv) (nullish (compoundSimplicity (opts wordObj)) 5)) in
  let first := (word wordObj =? "")%string in
  let preOnFirst := is_positive (js_rem (Z.of_N deriv) 6) in
  wordObj <-
    (if (first && preOnFirst) || lastSkippedPost wordObj || compound
     then
       wordObj <- appendNextPhonetic PHONETIC_PRE PHONETIC_PRE_SIMPLE_LENGTH
                    wordObj false ;;
       Ret (set_lastSkippedPre false wordObj)
     else Ret (set_lastSkippedPre true wordObj)) ;;
  wordObj <- appendNextPhonetic PHONETIC_MID PHONETIC_MID_SIMPLE_LENGTH
               wordObj (first && lastSkippedPre wordObj) ;;
  if lastSkippedPre wordObj || compound
  then
    wordObj <- appendNextPhonetic PHONETIC_POST PHONETIC_POST_SIMPLE_LENGTH
                 wordObj false ;;
    Ret (set_lastSkippedPost false wordObj)
  else Ret (set_lastSkippedPost true wordObj).

(** ** capFirst *)

(** [str.charAt(0).toUpperCase() + str.slice(1)].  The field of the options
    has the same name, so the function is [capFirst_]. *)
Definition capFirst_ (str : string) : string :=
  match str with
  | EmptyString => ""
  | String c rest => String (toUpperCase c) rest
  end.

(** ** randomBytes and getOptions *)

(** [rand i] is the value of [Math.floor(Math.random() * 256)] at the
    [i]-th turn of the loop, which always runs sixteen times. *)
Definition randomBytes (rand : nat -> Byte.byte) (size : nat) : outcome (list N) :=
  fold_left
    (fun acc i =>
       buf <- acc ;;
       Buffer.writeUInt8 buf (Byte.to_N (rand i)) i)
    (seq 0 16) (Ret (Buffer.alloc size)).

(** An absent [capFirst] is [None]; [overrides || {}] is the identity on a
    record. *)
Definition getOptions (rand : nat -> Byte.byte) (overrides : PhoneticOptions)
  : outcome PhoneticOptions :=
  let syllables' := or_number (syllables overrides) 3 in
  seed' <-
    match seed overrides with
    | Some s =>
        if (s =? "")%string
        then buf <- randomBytes rand 16 ;; Ret (Buffer.toString_base64 buf)
        else Ret s
    | None => buf <- randomBytes rand 16 ;; Ret (Buffer.toString_base64 buf)
    end ;;
  let phoneticSimplicity' :=
    match phoneticSimplicity overrides with
    | Some v => if (v =? 0)%Z then 5%Z else Z.max v 1
    | None => 5%Z
    end in
  let compoundSimplicity' :=
    match compoundSimplicity overrides with
    | Some v => if (v =? 0)%Z then 5%Z else Z.max v 1
    | None => 5%Z
    end in
  let capFirst' :=
    match capFirst overrides with
    | Some v => v
    | None => Boolean true
    end in
  Ret (mkOptions (Some syllables') (Some seed') (Some phoneticSimplicity')
         (Some compoundSimplicity') (Some capFirst')).

(** ** Regular expressions and [String.prototype.replace] *)

(** The fragment of the regular-expression syntax that the keys of
    [REPLACEMENTS] use. *)
Inductive regex : Type :=
| Eps                              (* the empty pattern *)
| Chr (c : ascii)                  (* the character [c] *)
| Cls (set : string)               (* [...]: one character of [set] *)
| Dot                              (* . : any character but a line end *)
| Bol                              (* ^ *)
| Eol                              (* $ *)
| NotAhead (r : regex)             (* (?!r) *)
| Cat (r1 r2 : regex)
| Alt (r1 r2 : regex)              (* r1|r2, r1 tried first *)
| Grp (n : nat) (r : regex)        (* (r), the n-th capture group *)
| Times (k : nat) (r : regex).     (* r{k} *)

Definition captures : Type := list (nat * string).

Fixpoint capture (n : nat) (cs : captures) : string :=
  match cs with
  | [] => ""
  | (m, s) :: cs' => if Nat.eqb n m then s else capture n cs'
  end.

Fixpoint mem (c : ascii) (set : string) : bool :=
  match set with
  | EmptyString => false
  | String d set' => Ascii.eqb c d || mem c set'
  end.

(** The line ends that [.] refuses: LF and CR.  The two others of JS,
    U+2028 and U+2029, are not characters of an ASCII text. *)
Definition line_end (c : ascii) : bool := mem c (String "010" (String "013" "")).

(** The text of [input] from position [pos] on. *)
Definition from (pos : nat) (input : string) : string :=
  substring pos (String.length input - pos) input.

(** A backtracking matcher: [rmatch r input pos cs k] matches [r] at [pos]
    and hands the end position and the captures to the continuation [k];
    when [k] refuses, the next alternative is tried. *)
Fixpoint rmatch (X : Type) (r : regex) (input : string) (pos : nat)
    (cs : captures) (k : nat -> captures -> option X) {struct r} : option X :=
  match r with
  | Eps => k pos cs
  | Chr c =>
      match get pos input with
      | Some d => if Ascii.eqb c d then k (S pos) cs else None
      | None => None
      end
  | Cls set =>
      match get pos input with
      | Some c => if mem c set then k (S pos) cs else None
      | None => None
      end
  | Dot =>
      match get pos input with
      | Some c => if line_end c then None else k (S pos) cs
      | None => None
      end
  | Bol => if Nat.eqb pos 0 then k pos cs else None
  | Eol => if Nat.eqb pos (String.length input) then k pos cs else None
  | NotAhead r' =>
      match rmatch unit r' input pos cs (fun _ _ => Some tt) with
      | Some _ => None
      | None => k pos cs
      end
  | Cat r1 r2 =>
      rmatch X r1 input pos cs (fun p c => rmatch X r2 input p c k)
  | Alt r1 r2 =>
      match rmatch X r1 input pos cs k with
      | Some x => Some x
      | None => rmatch X r2 input pos cs k
      end
  | Grp n r' =>
      rmatch X r' input pos cs
        (fun p c => k p ((n, substring pos (p - pos) input) :: c))
  | Times n r' =>
      (fix rep (n : nat) (pos : nat) (cs : captures) : option X :=
         match n with
         | O => k pos cs
         | S m => rmatch X r' input pos cs (fun p c => rep m p c)
         end) n pos cs
  end.

(** The match of [r] at position [pos]: its end and its captures. *)
Definition match_at (r : regex) (input : string) (pos : nat)
  : option (nat * captures) :=
  rmatch (nat * captures) r input pos [] (fun p c => Some (p, c)).

(** The leftmost match from [pos] on, looking at [fuel] further
    positions. *)
Fixpoint search (fuel : nat) (r : regex) (input : string) (pos : nat)
  : option (nat * nat * captures) :=
  match match_at r input pos with
  | Some (e, cs) => Some (pos, e, cs)
  | None =>
      match fuel with
      | O => None
      | S fuel' => search fuel' r input (S pos)
      end
  end.

Definition exec (r : regex) (input : string) : option (nat * nat * captures) :=
  search (String.length input) r input 0.

(** The replacement text: [$d] stands for the capture of group [d]; the
    other [$] forms do not occur in the table. *)
Fixpoint expand (template : string) (cs : captures) : string :=
  match template with
  | EmptyString => ""
  | String c rest =>
      match rest with
      | String d rest' =>
          let n := N_of_ascii d in
          if Ascii.eqb c "$" && (49 <=? n)%N && (n <=? 57)%N
          then capture (N.to_nat (n - 48)) cs ++ expand rest' cs
          else String c (expand rest cs)
      | EmptyString => String c ""
      end
  end.

(** [input.replace(r, template)] for a regular expression without the
    global flag: the leftmost match only. *)
Definition replace (r : regex) (template : string) (input : string) : string :=
  match exec r input with
  | Some (s, e, cs) =>
      substring 0 s input ++ expand template cs ++ from e input
  | None => input
  end.

(** ** new RegExp *)

(** The characters of a class, up to the closing bracket. *)
Fixpoint parseClass (s : string) : option (string * string) :=
  match s with
  | EmptyString => None
  | String c rest =>
      if Ascii.eqb c "]" then Some ("", rest)
      else if mem c "\^-[" then None
      else
        match parseClass rest with
        | Some (set, rest') => Some (String c set, rest')
        | None => None
        end
  end.

(** The digits of a count, up to the closing brace. *)
Fixpoint parseCount (acc : nat) (s : string) : option (nat * string) :=
  match s with
  | EmptyString => None
  | String c rest =>
      let n := N_of_ascii c in
      if Ascii.eqb c "}" then Some (acc, rest)
      else if (48 <=? n)%N && (n <=? 57)%N
           then parseCount (10 * acc + N.to_nat (n - 48)) rest
           else None
  end.

(** A recursive-descent parser for disjunctions, alternatives and terms;
    [groups] counts the capture groups opened so far and [fuel] bounds the
    depth of the descent.  [None] is a syntax that the model does not
    cover. *)
Fixpoint parseDisjunction (fuel : nat) (s : string) (groups : nat)
  : option (regex * string * nat) :=
  match fuel with
  | O => None
  | S fuel' =>
      match parseAlternative fuel' s groups with
      | Some (r1, String "|" rest, groups') =>
          match parseDisjunction fuel' rest groups' with
          | Some (r2, rest', groups'') => Some (Alt r1 r2, rest', groups'')
          | None => None
          end
      | other => other
      end
  end
with parseAlternative (fuel : nat) (s : string) (groups : nat)
  : option (regex * string * nat) :=
  match fuel with
  | O => None
  | S fuel' =>
      match s with
      | EmptyString | String "|" _ | String ")" _ => Some (Eps, s, groups)
      | _ =>
          match parseTerm fuel' s groups with
          | Some (r1, rest, groups') =>
              match rest with
              | EmptyString | String "|" _ | String ")" _ =>
                  Some (r1, rest, groups')
              | _ =>
                  match parseAlternative fuel' rest groups' with
                  | Some (r2, rest', groups'') => Some (Cat r1 r2, rest', groups'')
                  | None => None
                  end
              end
          | None => None
          end
      end
  end
with parseTerm (fuel : nat) (s : string) (groups : nat)
  : option (regex * string * nat) :=
  match fuel with
  | O => None
  | S fuel' =>
      let atom :=
        match s with
        | EmptyString => None
        | String "^" rest => Some (Bol, rest, groups)
        | String "$" rest => Some (Eol, rest, groups)
        | String "." rest => Some (Dot, rest, groups)
        | String "[" rest =>
            match parseClass rest with
            | Some (set, rest') => Some (Cls set, rest', groups)
            | None => None
            end
        | String "(" (String "?" (String "!" rest)) =>
            match parseDisjunction fuel' rest groups with
            | Some (r, String ")" rest', groups') => Some (NotAhead r, rest', groups')
            | _ => None
            end
        | String "(" rest =>
            match parseDisjunction fuel' rest (S groups) with
            | Some (r, String ")" rest', groups') =>
                Some (Grp (S groups) r, rest', groups')
            | _ => None
            end
        | String c rest =>
            if mem c "\*+?{}]" then None else Some (Chr c, rest, groups)
        end in
      match atom with
      | Some (r, String "{" rest, groups') =>
          match parseCount 0 rest with
          | Some (k, rest') => Some (Times k r, rest', groups')
          | None => None
          end
      | other => other
      end
  end.

(** [new RegExp(pattern)], which throws a [SyntaxError] on a pattern it
    cannot compile. *)
Definition RegExp (pattern : string) : outcome regex :=
  match parseDisjunction (3 * String.length pattern + 3) pattern 0 with
  | Some (r, EmptyString, _) => Ret r
  | _ => Throw "SyntaxError"
  end.

(** ** REPLACEMENTS and postProcess *)

(** The object is enumerated by [for ... in] in the order in which its keys
    were written, hence a list of pairs; every key is an own property. *)
Definition REPLACEMENTS : list (string * string) :=
  [ ("quu", "que");
    ("qu([aeiou]){2}", "qu$1");
    ("[iu]y", "ey");
    ("eye", "ye");
    ("(.)ye$", "$1y");
    ("(^|e)cie(?!$)", "$1cei");
    ("([vz])$", "$1e");
    ("[iu]w", "ow") ].

Definition truthy (b : option boolOrUndefined) : bool :=
  match b with
  | Some (Boolean true) => true
  | _ => false
  end.

Definition postProcess (wordObj : PhoneticWordObject) : outcome string :=
  wordObj <-
    fold_left
      (fun acc entry =>
         w <- acc ;;
         regex <- RegExp (fst entry) ;;
         Ret (set_word (replace regex (snd entry) (word w)) w))
      REPLACEMENTS (Ret wordObj) ;;
  if truthy (capFirst (opts wordObj)) then Ret (capFirst_ (word wordObj))
  else Ret (word wordObj).

(** ** generate *)

(** [while (syllables--) addSyllable(wordObj)]: the loop ends when the
    counter is zero at its test; [fuel] bounds the number of tests. *)
Fixpoint syllableLoop (fuel : nat) (syllables : Z) (wordObj : PhoneticWordObject)
  : outcome PhoneticWordObject :=
  match fuel with
  | O => OutOfFuel
  | S fuel' =>
      if syllables =? 0 then Ret wordObj
      else
        wordObj <- addSyllable wordObj ;;
        syllableLoop fuel' (syllables - 1) wordObj
  end.

(** The object built by [generate] before the loop. *)
Definition initialWordObj (options : PhoneticOptions) : outcome PhoneticWordObject :=
  numeric0 <- getNumericHash (DataString (nullish (seed options) "")) ;;
  Ret (mkWordObj numeric0 false false "" options).

(** The word object as it is handed to [postProcess]. *)
Definition rawWordObj (fuel : nat) (rand : nat -> Byte.byte)
    (options : PhoneticOptions) : outcome PhoneticWordObject :=
  options <- getOptions rand options ;;
  let syllables := or_number (syllables options) 3 in
  wordObj <- initialWordObj options ;;
  syllableLoop fuel syllables wordObj.

Definition generate (fuel : nat) (rand : nat -> Byte.byte)
    (options : PhoneticOptions) : outcome string :=
  wordObj <- rawWordObj fuel rand options ;;
  postProcess wordObj.

(** ** Notions used by the statements *)

(** The seed that [getOptions] resolves to. *)
Definition resolvedSeed (rand : nat -> Byte.byte) (overrides : PhoneticOptions)
  : outcome string :=
  match seed overrides with
  | Some s =>
      if (s =? "")%string
      then buf <- randomBytes rand 16 ;; Ret (Buffer.toString_base64 buf)
      else Ret s
  | None => buf <- randomBytes rand 16 ;; Ret (Buffer.toString_base64 buf)
  end.

(** The value a simplicity option resolves to. *)
Definition resolvedSimplicity (v : option Z) : Z :=
  match v with
  | Some v => if v =? 0 then 5 else Z.max v 1
  | None => 5
  end.

(** The three (set, simple length) pairs that [addSyllable] passes to
    [getNextPhonetic]. *)
Definition syllableTables : list (list string * Z) :=
  [ (PHONETIC_PRE, PHONETIC_PRE_SIMPLE_LENGTH);
    (PHONETIC_MID, PHONETIC_MID_SIMPLE_LENGTH);
    (PHONETIC_POST, PHONETIC_POST_SIMPLE_LENGTH) ].

(** The text that [getNextPhonetic] hashes: the numeric and the word as the
    word object holds them at the call. *)
Definition hashedText (wordObj : PhoneticWordObject) : hashData :=
  DataString (string_of_number (numeric wordObj) ++ word wordObj).

(** An entry of one of the three tables. *)
Definition isFragment (s : string) : Prop :=
  In s PHONETIC_PRE \/ In s PHONETIC_MID \/ In s PHONETIC_POST.

(** A word that is a concatenation of table entries. *)
Definition fragmentWord (w : string) : Prop :=
  exists fragments, Forall isFragment fragments
                    /\ w = fold_right append "" fragments.

(** [n] calls of [f] in sequence. *)
Fixpoint times {A : Type} (n : nat) (f : A -> outcome A) (a : A) : outcome A :=
  match n with
  | O => Ret a
  | S n' => a' <- f a ;; times n' f a'
  end.

(** The options that [getOptions] returns for the seed [s]. *)
Definition resolvedOptions (overrides : PhoneticOptions) (s : string)
  : PhoneticOptions :=
  mkOptions (Some (or_number (syllables overrides) 3)) (Some s)
    (Some (resolvedSimplicity (phoneticSimplicity overrides)))
    (Some (resolvedSimplicity (compoundSimplicity overrides)))
    (Some (nullish (capFirst overrides) (Boolean true))).

(** The word object that [generate] starts from. *)
Definition startWordObj (options : PhoneticOptions) : PhoneticWordObject :=
  mkWordObj (numericHash (DataString (nullish (seed options) "")))
    false false "" options.

(** The word object [w] with other options. *)
Definition withOptions (options : PhoneticOptions) (w : PhoneticWordObject)
  : PhoneticWordObject :=
  mkWordObj (numeric w) (lastSkippedPre w) (lastSkippedPost w) (word w) options.

(** The eight replacements on the text alone. *)
Definition applyReplacements (table : list (regex * string)) (s : string) : string :=
  fold_left (fun s entry => replace (fst entry) (snd entry) s) table s.

(** The keys of [REPLACEMENTS] as [new RegExp] compiles them, with their
    replacement texts. *)
Definition compiledReplacements : list (regex * string) :=
  [ (Cat (Chr "q") (Cat (Chr "u") (Chr "u")), "que");
    (Cat (Chr "q") (Cat (Chr "u") (Times 2 (Grp 1 (Cls "aeiou")))), "qu$1");
    (Cat (Cls "iu") (Chr "y"), "ey");
    (Cat (Chr "e") (Cat (Chr "y") (Chr "e")), "ye");
    (Cat (Grp 1 Dot) (Cat (Chr "y") (Cat (Chr "e") Eol)), "$1y");
    (Cat (Grp 1 (Alt Bol (Chr "e")))
       (Cat (Chr "c") (Cat (Chr "i") (Cat (Chr "e") (NotAhead Eol)))), "$1cei");
    (Cat (Grp 1 (Cls "vz")) Eol, "$1e");
    (Cat (Cls "iu") (Chr "w"), "ow") ].

(** [output] is [input] with its leftmost match of [r] replaced by the
    expansion of [template] and the text before and after the match kept;
    or [r] matches nowhere and [output] is [input]. *)
Definition replacesFirstMatch (r : regex) (template input output : string) : Prop :=
  (exists before matched after cs,
      input = before ++ matched ++ after
      /\ match_at r input (String.length before)
         = Some ((String.length before + String.length matched)%nat, cs)
      /\ (forall pos, (pos < String.length before)%nat -> match_at r input pos = None)
      /\ output = before ++ expand template cs ++ after)
  \/ ((forall pos, (pos <= String.length input)%nat -> match_at r input pos = None)
      /\ output = input).

(** The replacements of [table] applied in order, each to the result of
    the one before. *)
Fixpoint replacedInOrder (table : list (regex * string)) (input output : string)
  : Prop :=
  match table with
  | [] => output = input
  | entry :: table' =>
      exists mid,
        replacesFirstMatch (fst entry) (snd entry) input mid
        /\ replacedInOrder table' mid output
  end.

(** A lower-case letter of the Latin alphabet. *)
Definition lower (c : ascii) : bool :=
  let n := N_of_ascii c in (97 <=? n)%N && (n <=? 122)%N.

(** A text made of lower-case letters. *)
Fixpoint lowercase (s : string) : bool :=
  match s with
  | EmptyString => true
  | String c s' => lower c && lowercase s'
  end.

(** A text of ASCII characters (codes below 128).  On such a text one
    character of the model is one UTF-16 unit of the JS string, and
    [toUpperCase], the classes and the [.] of the patterns and the UTF-8
    bytes that are hashed are those of JS. *)
Fixpoint asciiText (s : string) : bool :=
  match s with
  | EmptyString => true
  | String c s' => (N_of_ascii c <? 128)%N && asciiText s'
  end.

(** A text cut out of [input]. *)
Definition cutFrom (input s : string) : Prop :=
  exists n m, s = substring n m input.

(** The change of length that a match of [r] followed by the expansion of
    [template] makes is [delta]. *)
Definition lengthChange (r : regex) (template : string) (delta : Z) : Prop :=
  forall input pos e cs,
    match_at r input pos = Some (e, cs) ->
    Z.of_nat (String.length (expand template cs))
    = Z.of_nat e - Z.of_nat pos + delta.

(** The last character of a text. *)
Fixpoint lastChar (s : string) : option ascii :=
  match s with
  | EmptyString => None
  | String c EmptyString => Some c
  | String _ s' => lastChar s'
  end.

(** * Properties *)

(** ** Outcomes *)

Lemma returns_inv {A : Type} (m : outcome A) (Q : A -> Prop) :
  returns m Q -> exists a, m = Ret a /\ Q a.
Proof. destruct m; simpl; intro H; try contradiction. exists a; auto. Qed.

Lemma returns_bind {A B : Type} (m : outcome A) (f : A -> outcome B)
    (Q : B -> Prop) :
  returns m (fun a => returns (f a) Q) -> returns (bind m f) Q.
Proof. destruct m; simpl; auto. Qed.

Lemma returns_weaken {A : Type} (m : outcome A) (P Q : A -> Prop) :
  returns m P -> (forall a, P a -> Q a) -> returns m Q.
Proof. destruct m; simpl; auto. Qed.

(** ** The digest and its hexadecimal text *)

(** The test suite of RFC 1321. *)
Example md5_empty :
  Md5.end_ false (Md5.appendStr "")
  = Md5.HexString "d41d8cd98f00b204e9800998ecf8427e".
Proof. vm_compute. reflexivity. Qed.

Example md5_abc :
  Md5.end_ false (Md5.appendStr "abc")
  = Md5.HexString "900150983cd24fb0d6963f7d28e17f72".
Proof. vm_compute. reflexivity. Qed.

Example md5_message_digest :
  Md5.end_ false (Md5.appendStr "message digest")
  = Md5.HexString "f96b697d7cb7938d525a2f31aaf161d0".
Proof. vm_compute. reflexivity. Qed.

Example md5_two_blocks :
  Md5.end_ false
    (Md5.appendStr
       "12345678901234567890123456789012345678901234567890123456789012345678901234567890")
  = Md5.HexString "57edf4a22be3c955ac49da2e2107b67a".
Proof. vm_compute. reflexivity. Qed.

Example getNumericHash_a : getNumericHash (DataString "a") = Ret 6541926843%N.
Proof. vm_compute. reflexivity. Qed.

Lemma hexval_hexdigit (n : N) :
  (n < 16)%N -> Buffer.hexval (Md5.hexdigit n) = Some n.
Proof.
  intro H.
  assert (E : In n (map N.of_nat (seq 0 16))).
  { replace n with (N.of_nat (N.to_nat n)) by apply N2Nat.id.
    apply in_map, in_seq. lia. }
  simpl in E.
  repeat (destruct E as [<- | E]; [reflexivity |]).
  contradiction.
Qed.

Lemma from_hex_hex (bs : list N) :
  Forall (fun b => (b < 256)%N) bs -> Buffer.from_hex (Md5.hex bs) = bs.
Proof.
  induction 1 as [| b bs Hb _ IH]; [reflexivity |].
  cbn [Md5.hex Buffer.from_hex].
  rewrite !hexval_hexdigit.
  - rewrite IH. f_equal.
    symmetry. apply N.div_mod'.
  - apply N.mod_lt. discriminate.
  - apply N.Div0.div_lt_upper_bound. exact Hb.
Qed.

Lemma le_bytes_length (k : nat) (n : N) : List.length (Md5.le_bytes k n) = k.
Proof. revert n; induction k; intro n; simpl; auto. Qed.

Lemma le_bytes_byte (k : nat) (n : N) :
  Forall (fun b => (b < 256)%N) (Md5.le_bytes k n).
Proof.
  revert n; induction k; intro n; simpl; constructor; auto.
  apply N.mod_lt. discriminate.
Qed.

Lemma digest_length (st : Md5.state) : List.length (Md5.digest st) = 16%nat.
Proof. unfold Md5.digest. rewrite !length_app, !le_bytes_length. reflexivity. Qed.

Lemma digest_bytes (st : Md5.state) :
  Forall (fun b => (b < 256)%N) (Md5.digest st).
Proof. unfold Md5.digest. rewrite !Forall_app. auto using le_bytes_byte. Qed.

(** A buffer of sixteen bytes is read without an exception, and the four
    reads are the four words of the specification. *)
Lemma read_words (buf : list N) :
  List.length buf = 16%nat ->
  fold_left
    (fun acc i =>
       numeric <- acc ;;
       v <- Buffer.readUInt32LE buf i ;;
       Ret (numeric + v)%N)
    [0; 4; 8; 12]%nat (Ret 0%N)
  = Ret (word32_le buf 0 + word32_le buf 4 + word32_le buf 8 + word32_le buf 12)%N.
Proof.
  intro H.
  do 16 (destruct buf as [| ? buf]; [discriminate H |]).
  destruct buf; [| discriminate H].
  cbn [fold_left bind Buffer.readUInt32LE skipn].
  unfold word32_le. cbn [nth Nat.add].
  f_equal. lia.
Qed.

Lemma getNumericHash_returns (data : hashData) :
  getNumericHash data = Ret (numericHash data).
Proof.
  unfold getNumericHash, numericHash. cbn [Md5.end_].
  rewrite from_hex_hex by apply digest_bytes.
  apply read_words, digest_length.
Qed.

(** C8.  [getNumericHash] returns, without an exception, the sum of the four
    little-endian 32-bit words at the byte offsets 0, 4, 8 and 12 of the
    sixteen-byte MD5 digest of the text of its input followed by the salt
    "-Phonetic".  The result is this expression of the input and of nothing
    else: the function reads no state, and equal inputs give equal
    results. *)
Theorem getNumericHash_spec (input : hashData) :
  let d := Md5.digest (Md5.appendStr (data_text input ++ "-Phonetic")) in
  List.length d = 16%nat
  /\ Forall (fun b => (b < 256)%N) d
  /\ getNumericHash input
     = Ret (word32_le d 0 + word32_le d 4 + word32_le d 8 + word32_le d 12)%N.
Proof.
  split; [apply digest_length |].
  split; [apply digest_bytes |].
  exact (getNumericHash_returns input).
Qed.

(** ** getDerivative: the fuel is enough *)

Lemma getDerivative_loop_fuel (fuel fuel' : nat) :
  forall derivative num,
    (num < 2 ^ N.of_nat fuel)%N -> (num < 2 ^ N.of_nat fuel')%N ->
    getDerivative_loop fuel derivative num = getDerivative_loop fuel' derivative num.
Proof.
  revert fuel'. induction fuel as [| fuel IH]; intros fuel' derivative num H H'.
  - assert (num = 0%N) by (simpl in H; lia). subst num.
    destruct fuel'; reflexivity.
  - destruct fuel' as [| fuel'].
    + assert (num = 0%N) by (simpl in H'; lia). subst num. reflexivity.
    + simpl. destruct (N.eqb_spec num 0); [reflexivity |].
      assert (Hdiv : forall k, (num < 2 ^ N.of_nat (S k) -> num / 7 < 2 ^ N.of_nat k)%N).
      { intros k Hk. rewrite Nat2N.inj_succ, N.pow_succ_r' in Hk.
        apply N.Div0.div_lt_upper_bound. lia. }
      apply IH; auto.
Qed.

(** The loop of [getDerivative], one turn at a time. *)
Lemma getDerivative_loop_turn (derivative num : N) :
  num <> 0%N ->
  getDerivative_loop (N.to_nat (N.size num)) derivative num
  = getDerivative_loop (N.to_nat (N.size (num / 7)))
      (derivative + num mod 7)%N (num / 7)%N.
Proof.
  intro Hnz.
  destruct (N.to_nat (N.size num)) as [| fuel] eqn:E.
  - pose proof (N.size_gt num) as H.
    replace (N.size num) with 0%N in H by lia. simpl in H. lia.
  - simpl. destruct (N.eqb_spec num 0); [contradiction |].
    apply getDerivative_loop_fuel.
    + pose proof (N.size_gt num) as H.
      replace (N.size num) with (N.succ (N.of_nat fuel)) in H by lia.
      rewrite N.pow_succ_r' in H.
      apply N.Div0.div_lt_upper_bound. lia.
    + rewrite N2Nat.id. apply N.size_gt.
Qed.

(** ** randomBytes and getOptions return *)

Lemma set_byte_length (buf : list N) (offset : nat) (value : N) :
  List.length (Buffer.set_byte buf offset value) = List.length buf.
Proof.
  revert offset; induction buf as [| b buf IH]; intros [| o]; simpl; auto.
Qed.

Lemma write_all_returns (rand : nat -> Byte.byte) (offsets : list nat) :
  forall buf,
    Forall (fun i => (i < List.length buf)%nat) offsets ->
    returns
      (fold_left
         (fun acc i => buf <- acc ;; Buffer.writeUInt8 buf (Byte.to_N (rand i)) i)
         offsets (Ret buf))
      (fun buf' => List.length buf' = List.length buf).
Proof.
  induction offsets as [| i offsets IH]; intros buf H.
  - reflexivity.
  - inversion H as [| ? ? Hi Hrest]; subst.
    cbn [fold_left bind]. unfold Buffer.writeUInt8.
    pose proof (Byte.to_N_bounded (rand i)) as Hb.
    apply N.leb_le in Hb. rewrite Hb.
    apply Nat.ltb_lt in Hi. rewrite Hi. cbn [andb].
    eapply returns_weaken.
    + apply IH. rewrite set_byte_length. exact Hrest.
    + intros buf' ->. apply set_byte_length.
Qed.

Lemma randomBytes_returns (rand : nat -> Byte.byte) :
  returns (randomBytes rand 16) (fun buf => List.length buf = 16%nat).
Proof.
  unfold randomBytes.
  eapply returns_weaken.
  - apply write_all_returns. apply Forall_forall. intros i Hi.
    apply in_seq in Hi. unfold Buffer.alloc. rewrite repeat_length. lia.
  - intros buf ->. unfold Buffer.alloc. apply repeat_length.
Qed.

Lemma resolvedSeed_returns (rand : nat -> Byte.byte) (overrides : PhoneticOptions) :
  exists s, resolvedSeed rand overrides = Ret s.
Proof.
  unfold resolvedSeed.
  destruct (returns_inv _ _ (randomBytes_returns rand)) as (buf & E & _).
  rewrite E. cbn [bind].
  destruct (seed overrides) as [s |]; [destruct (s =? "")%string |]; eauto.
Qed.

Lemma getOptions_eq (rand : nat -> Byte.byte) (overrides : PhoneticOptions) :
  getOptions rand overrides
  = s <- resolvedSeed rand overrides ;;
    Ret (mkOptions (Some (or_number (syllables overrides) 3)) (Some s)
           (Some (resolvedSimplicity (phoneticSimplicity overrides)))
           (Some (resolvedSimplicity (compoundSimplicity overrides)))
           (Some (nullish (capFirst overrides) (Boolean true)))).
Proof. reflexivity. Qed.

Lemma resolvedSimplicity_pos (v : option Z) : 1 <= resolvedSimplicity v.
Proof.
  destruct v as [v |]; simpl; [| lia].
  destruct (v =? 0); lia.
Qed.

(** ** getNextPhonetic *)

Lemma getNextPhonetic_eq (phoneticSet : list string) (simpleCap : Z)
    (wordObj : PhoneticWordObject) (forceSimple : bool) :
  getNextPhonetic phoneticSet simpleCap wordObj forceSimple
  = Ret (subscript phoneticSet (phoneticIndex phoneticSet simpleCap wordObj forceSimple),
         set_numeric (numericHash (hashedText wordObj)) wordObj).
Proof.
  unfold getNextPhonetic. fold (hashedText wordObj).
  rewrite getNumericHash_returns. reflexivity.
Qed.

Lemma appendNextPhonetic_eq (phoneticSet : list string) (simpleCap : Z)
    (wordObj : PhoneticWordObject) (forceSimple : bool) :
  appendNextPhonetic phoneticSet simpleCap wordObj forceSimple
  = Ret (mkWordObj (numericHash (hashedText wordObj))
           (lastSkippedPre wordObj) (lastSkippedPost wordObj)
           (word wordObj
            ++ text_of (subscript phoneticSet
                          (phoneticIndex phoneticSet simpleCap wordObj forceSimple)))
           (opts wordObj)).
Proof.
  unfold appendNextPhonetic. rewrite getNextPhonetic_eq. reflexivity.
Qed.

Lemma phoneticCap_bounds (phoneticSet : list string) (simpleCap : Z)
    (wordObj : PhoneticWordObject) (forceSimple : bool) :
  In (phoneticSet, simpleCap) syllableTables ->
  0 < phoneticCap phoneticSet simpleCap wordObj forceSimple
    <= Z.of_nat (List.length phoneticSet).
Proof.
  intro H. unfold phoneticCap.
  destruct (_ || forceSimple);
    repeat (destruct H as [H | H]; [inversion H; subst; vm_compute; intuition discriminate |]);
    contradiction.
Qed.

Lemma phoneticIndex_bounds (phoneticSet : list string) (simpleCap : Z)
    (wordObj : PhoneticWordObject) (forceSimple : bool) :
  In (phoneticSet, simpleCap) syllableTables ->
  exists i,
    phoneticIndex phoneticSet simpleCap wordObj forceSimple = Some i
    /\ 0 <= i < Z.of_nat (List.length phoneticSet).
Proof.
  intro H.
  pose proof (phoneticCap_bounds _ _ wordObj forceSimple H) as Hcap.
  unfold phoneticIndex, js_rem.
  destruct (Z.eqb_spec (phoneticCap phoneticSet simpleCap wordObj forceSimple) 0);
    [lia |].
  eexists; split; [reflexivity |].
  pose proof (Z.rem_bound_pos (Z.of_N (numeric wordObj))
                (phoneticCap phoneticSet simpleCap wordObj forceSimple)).
  lia.
Qed.

Lemma subscript_in_bounds (arr : list string) (i : Z) :
  0 <= i < Z.of_nat (List.length arr) ->
  exists s, subscript arr (Some i) = Some s /\ In s arr.
Proof.
  intro H. unfold subscript.
  destruct (Z.ltb_spec i 0); [lia |].
  destruct (nth_error arr (Z.to_nat i)) as [s |] eqn:E.
  - exists s; split; [reflexivity |]. eapply nth_error_In; eauto.
  - apply nth_error_None in E. lia.
Qed.

(** C10.  For each of the three (set, simple length) pairs of [addSyllable],
    every numeric state (a non-negative integer, by its type) and either
    value of [forceSimple], the subscript [numeric % cap] is a number from 0
    up to the length of the set, excluded, so the phonetic returned by
    [getNextPhonetic] is the string of the set at that place and never
    [undefined]. *)
Theorem getNextPhonetic_in_bounds (phoneticSet : list string) (simpleCap : Z)
    (wordObj : PhoneticWordObject) (forceSimple : bool) :
  In (phoneticSet, simpleCap) syllableTables ->
  exists i phonetic,
    phoneticIndex phoneticSet simpleCap wordObj forceSimple = Some i
    /\ 0 <= i < Z.of_nat (List.length phoneticSet)
    /\ nth_error phoneticSet (Z.to_nat i) = Some phonetic
    /\ returns (getNextPhonetic phoneticSet simpleCap wordObj forceSimple)
         (fun r => fst r = Some phonetic).
Proof.
  intro H.
  destruct (phoneticIndex_bounds _ _ wordObj forceSimple H) as (i & Ei & Hi).
  destruct (subscript_in_bounds phoneticSet i Hi) as (s & Es & _).
  exists i, s. repeat split; try tauto; try lia.
  - unfold subscript in Es. destruct (Z.ltb_spec i 0); [lia | exact Es].
  - rewrite getNextPhonetic_eq, Ei. exact Es.
Qed.

Lemma getNextPhonetic_in_bounds_witness :
  In (PHONETIC_MID, PHONETIC_MID_SIMPLE_LENGTH) syllableTables
  /\ exists i phonetic,
       phoneticIndex PHONETIC_MID PHONETIC_MID_SIMPLE_LENGTH
         (mkWordObj 6541926843 false false "" (mkOptions None (Some "a") None None None))
         true = Some i
       /\ 0 <= i < Z.of_nat (List.length PHONETIC_MID)
       /\ nth_error PHONETIC_MID (Z.to_nat i) = Some phonetic
       /\ returns
            (getNextPhonetic PHONETIC_MID PHONETIC_MID_SIMPLE_LENGTH
               (mkWordObj 6541926843 false false "" (mkOptions None (Some "a") None None None))
               true)
            (fun r => fst r = Some phonetic).
Proof.
  split.
  - simpl. tauto.
  - apply (getNextPhonetic_in_bounds PHONETIC_MID PHONETIC_MID_SIMPLE_LENGTH).
    simpl. tauto.
Defined.

(** C1 (as amended).  Every call of [getNextPhonetic] returns and advances
    the numeric to the hash of the text of the numeric before the update
    followed by the word as it is at the call, that is before the chosen
    fragment is appended: [wordObj.word += getNextPhonetic(...)] reads the
    word, calls the function and only then stores the longer word. *)
Theorem getNextPhonetic_hashes_word_before_append (phoneticSet : list string)
    (simpleCap : Z) (wordObj : PhoneticWordObject) (forceSimple : bool) :
  returns (getNextPhonetic phoneticSet simpleCap wordObj forceSimple)
    (fun r =>
       getNumericHash
         (DataString (string_of_number (numeric wordObj) ++ word wordObj))
       = Ret (numeric (snd r))
       /\ word (snd r) = word wordObj)
  /\ returns (appendNextPhonetic phoneticSet simpleCap wordObj forceSimple)
       (fun wordObj' =>
          getNumericHash
            (DataString (string_of_number (numeric wordObj) ++ word wordObj))
          = Ret (numeric wordObj')
          /\ word wordObj'
             = word wordObj
               ++ text_of (subscript phoneticSet
                             (phoneticIndex phoneticSet simpleCap wordObj forceSimple))).
Proof.
  rewrite getNextPhonetic_eq, appendNextPhonetic_eq. cbn [returns fst snd].
  rewrite getNumericHash_returns. cbn [numeric word set_numeric]. auto.
Qed.

(** The first fragment drawn for the seed "a" is "p"; the numeric after the
    draw is not the hash of the old numeric followed by "p". *)
Lemma hash_of_appended_word_counterexample :
  appendNextPhonetic PHONETIC_PRE PHONETIC_PRE_SIMPLE_LENGTH
    (mkWordObj 6541926843 false false "" (mkOptions None (Some "a") None None None))
    false
  = Ret (mkWordObj 6847466321 false false "p"
           (mkOptions None (Some "a") None None None))
  /\ getNumericHash (DataString (string_of_number 6541926843 ++ "p"))
     <> Ret 6847466321%N.
Proof.
  split.
  - vm_compute. reflexivity.
  - intro H. vm_compute in H. discriminate H.
Qed.

(** ** Strings *)

Lemma append_nil_r (s : string) : s ++ "" = s.
Proof. induction s; simpl; congruence. Qed.

Lemma append_assoc (s1 s2 s3 : string) : (s1 ++ s2) ++ s3 = s1 ++ (s2 ++ s3).
Proof. induction s1; simpl; congruence. Qed.

Lemma append_length (s1 s2 : string) :
  String.length (s1 ++ s2) = (String.length s1 + String.length s2)%nat.
Proof. induction s1; simpl; congruence. Qed.

Lemma fold_append (fragments : list string) (s : string) :
  fold_right append s fragments = fold_right append "" fragments ++ s.
Proof.
  induction fragments as [| f fragments IH]; simpl; [reflexivity |].
  rewrite IH, append_assoc. reflexivity.
Qed.

(** ** The raw word is made of table entries *)

Lemma fragmentWord_empty : fragmentWord "".
Proof. exists []. split; [constructor | reflexivity]. Qed.

Lemma fragmentWord_append (w f : string) :
  fragmentWord w -> isFragment f -> fragmentWord (w ++ f).
Proof.
  intros (fragments & Hall & ->) Hf.
  exists (fragments ++ [f])%list. split.
  - apply Forall_app. split; [exact Hall | constructor; [exact Hf | constructor]].
  - rewrite fold_right_app. cbn [fold_right].
    rewrite append_nil_r. symmetry. apply fold_append.
Qed.

Lemma syllableTables_fragment (phoneticSet : list string) (simpleCap : Z) (s : string) :
  In (phoneticSet, simpleCap) syllableTables -> In s phoneticSet -> isFragment s.
Proof.
  unfold syllableTables, isFragment. intros H Hs.
  repeat (destruct H as [H | H]; [inversion H; subst; tauto |]).
  contradiction.
Qed.

Lemma appendNextPhonetic_fragment (phoneticSet : list string) (simpleCap : Z)
    (wordObj : PhoneticWordObject) (forceSimple : bool) :
  In (phoneticSet, simpleCap) syllableTables ->
  fragmentWord (word wordObj) ->
  returns (appendNextPhonetic phoneticSet simpleCap wordObj forceSimple)
    (fun wordObj' => fragmentWord (word wordObj')).
Proof.
  intros H Hw. rewrite appendNextPhonetic_eq. cbn [returns word].
  destruct (phoneticIndex_bounds _ _ wordObj forceSimple H) as (i & -> & Hi).
  destruct (subscript_in_bounds phoneticSet i Hi) as (s & -> & Hs).
  apply fragmentWord_append; [exact Hw |].
  eapply syllableTables_fragment; eauto.
Qed.

(** The shape of a syllable: the optional draw from PRE keeps [P], the draw
    from MID takes [P] to [Q], the optional draw from POST keeps [Q], and
    the flag updates keep both.  Every call returns. *)
Lemma addSyllable_rule (P Q : PhoneticWordObject -> Prop) :
  (forall b w, P w -> P (set_lastSkippedPre b w)) ->
  (forall b w, Q w -> Q (set_lastSkippedPost b w)) ->
  (forall w forceSimple,
      P w ->
      returns (appendNextPhonetic PHONETIC_PRE PHONETIC_PRE_SIMPLE_LENGTH w forceSimple) P) ->
  (forall w forceSimple,
      P w ->
      returns (appendNextPhonetic PHONETIC_MID PHONETIC_MID_SIMPLE_LENGTH w forceSimple) Q) ->
  (forall w forceSimple,
      Q w ->
      returns (appendNextPhonetic PHONETIC_POST PHONETIC_POST_SIMPLE_LENGTH w forceSimple) Q) ->
  forall wordObj, P wordObj -> returns (addSyllable wordObj) Q.
Proof.
  intros Hpre Hpost Hdraw1 Hdraw2 Hdraw3 wordObj Hw. unfold addSyllable.
  assert (Htail : forall w1 first compound,
             P w1 ->
             returns
               (w2 <- appendNextPhonetic PHONETIC_MID PHONETIC_MID_SIMPLE_LENGTH
                        w1 (first && lastSkippedPre w1) ;;
                if lastSkippedPre w2 || compound
                then
                  w3 <- appendNextPhonetic PHONETIC_POST PHONETIC_POST_SIMPLE_LENGTH
                          w2 false ;;
                  Ret (set_lastSkippedPost false w3)
                else Ret (set_lastSkippedPost true w2)) Q).
  { intros w1 first compound Hw1.
    apply returns_bind. eapply returns_weaken; [apply Hdraw2, Hw1 |].
    intros w2 Hw2. cbv beta.
    destruct (lastSkippedPre w2 || compound).
    - apply returns_bind. eapply returns_weaken; [apply Hdraw3, Hw2 |].
      intros w3 Hw3. apply Hpost, Hw3.
    - apply Hpost, Hw2. }
  apply returns_bind.
  match goal with
  | |- returns (if ?c then _ else _) _ => destruct c
  end.
  - apply returns_bind. eapply returns_weaken; [apply Hdraw1, Hw |].
    intros w1 Hw1. cbn [returns]. apply Htail, Hpre, Hw1.
  - cbn [returns]. apply Htail, Hpre, Hw.
Qed.

(** A property of the word object that the flag updates keep and every
    draw from one of the three tables keeps is kept by [addSyllable]. *)
Lemma addSyllable_invariant (I : PhoneticWordObject -> Prop) :
  (forall b w, I w -> I (set_lastSkippedPre b w)) ->
  (forall b w, I w -> I (set_lastSkippedPost b w)) ->
  (forall phoneticSet simpleCap w forceSimple,
      In (phoneticSet, simpleCap) syllableTables ->
      I w -> returns (appendNextPhonetic phoneticSet simpleCap w forceSimple) I) ->
  forall wordObj, I wordObj -> returns (addSyllable wordObj) I.
Proof.
  intros Hpre Hpost Hdraw.
  apply addSyllable_rule; auto; intros; apply Hdraw; simpl; auto.
Qed.

Lemma addSyllable_fragments (wordObj : PhoneticWordObject) :
  fragmentWord (word wordObj) ->
  returns (addSyllable wordObj) (fun w => fragmentWord (word w)).
Proof.
  apply (addSyllable_invariant (fun w => fragmentWord (word w))); auto.
  intros. apply appendNextPhonetic_fragment; auto.
Qed.

Lemma addSyllable_returns (wordObj : PhoneticWordObject) :
  exists wordObj', addSyllable wordObj = Ret wordObj'.
Proof.
  assert (H : returns (addSyllable wordObj) (fun _ => True)).
  { apply (addSyllable_invariant (fun _ => True)); auto.
    intros. rewrite appendNextPhonetic_eq. exact I. }
  destruct (returns_inv _ _ H) as (w & E & _). eauto.
Qed.

(** ** The loop of [generate] *)

(** From a non-negative counter the loop makes as many calls as the counter
    says, given fuel for one more test. *)
Lemma syllableLoop_times (fuel : nat) :
  forall syllables wordObj,
    0 <= syllables < Z.of_nat fuel ->
    syllableLoop fuel syllables wordObj
    = times (Z.to_nat syllables) addSyllable wordObj.
Proof.
  induction fuel as [| fuel IH]; intros syllables wordObj H; [lia |].
  cbn [syllableLoop]. destruct (Z.eqb_spec syllables 0) as [-> | Hnz].
  - reflexivity.
  - replace (Z.to_nat syllables) with (S (Z.to_nat (syllables - 1))) by lia.
    cbn [times]. destruct (addSyllable wordObj); cbn [bind]; auto.
    apply IH. lia.
Qed.

(** From a negative counter the test never sees zero. *)
Lemma syllableLoop_negative (fuel : nat) :
  forall syllables wordObj,
    syllables < 0 -> syllableLoop fuel syllables wordObj = OutOfFuel.
Proof.
  induction fuel as [| fuel IH]; intros syllables wordObj H; [reflexivity |].
  cbn [syllableLoop]. destruct (Z.eqb_spec syllables 0); [lia |].
  destruct (addSyllable_returns wordObj) as (w & ->). cbn [bind].
  apply IH. lia.
Qed.

Section LoopInvariant.

  Variable I : PhoneticWordObject -> Prop.
  Hypothesis addSyllable_keeps : forall w, I w -> returns (addSyllable w) I.

Lemma times_invariant (n : nat) :
  forall wordObj, I wordObj -> returns (times n addSyllable wordObj) I.
Proof.
  induction n as [| n IH]; intros wordObj Hw; [exact Hw |].
  cbn [times]. apply returns_bind.
  eapply returns_weaken; [apply addSyllable_keeps, Hw | auto].
Qed.

(** Whatever the counter and the fuel, the loop does not throw, and a word
    object it returns has the invariant of its calls. *)
Lemma syllableLoop_invariant (fuel : nat) :
  forall syllables wordObj,
    I wordObj ->
    syllableLoop fuel syllables wordObj = OutOfFuel
    \/ returns (syllableLoop fuel syllables wordObj) I.
Proof.
  induction fuel as [| fuel IH]; intros syllables wordObj Hw;
    [left; reflexivity |].
  cbn [syllableLoop]. destruct (syllables =? 0); [right; exact Hw |].
  destruct (returns_inv _ _ (addSyllable_keeps wordObj Hw)) as (w & -> & Hw').
  cbn [bind]. apply IH. exact Hw'.
Qed.

End LoopInvariant.

(** ** The run of [generate] up to [postProcess] *)

Lemma or_number_idem (a : option Z) (b : Z) :
  b <> 0 -> or_number (Some (or_number a b)) b = or_number a b.
Proof.
  intro Hb. unfold or_number at 1.
  destruct (Z.eqb_spec (or_number a b) 0) as [E | E]; [| reflexivity].
  unfold or_number in E. destruct a as [v |]; [| contradiction].
  destruct (Z.eqb_spec v 0); congruence.
Qed.

Lemma initialWordObj_eq (options : PhoneticOptions) :
  initialWordObj options = Ret (startWordObj options).
Proof.
  unfold initialWordObj. rewrite getNumericHash_returns. reflexivity.
Qed.

Lemma rawWordObj_eq (fuel : nat) (rand : nat -> Byte.byte)
    (overrides : PhoneticOptions) :
  rawWordObj fuel rand overrides
  = s <- resolvedSeed rand overrides ;;
    syllableLoop fuel (or_number (syllables overrides) 3)
      (startWordObj (resolvedOptions overrides s)).
Proof.
  unfold rawWordObj. rewrite getOptions_eq.
  destruct (resolvedSeed rand overrides) as [s | |]; cbn [bind]; auto.
  rewrite initialWordObj_eq. cbn [bind syllables].
  rewrite or_number_idem by discriminate. reflexivity.
Qed.

(** An invariant of the calls of [addSyllable] that holds of the starting
    word object holds of the one handed to [postProcess], when the loop
    ends; the run does not throw. *)
Lemma rawWordObj_invariant (I : PhoneticWordObject -> Prop) (fuel : nat)
    (rand : nat -> Byte.byte) (overrides : PhoneticOptions) :
  (forall w, I w -> returns (addSyllable w) I) ->
  (forall s, resolvedSeed rand overrides = Ret s ->
             I (startWordObj (resolvedOptions overrides s))) ->
  rawWordObj fuel rand overrides = OutOfFuel
  \/ returns (rawWordObj fuel rand overrides) I.
Proof.
  intros Hstep Hstart. rewrite rawWordObj_eq.
  destruct (resolvedSeed_returns rand overrides) as (s & E). rewrite E.
  cbn [bind]. apply syllableLoop_invariant; auto.
Qed.

(** With a non-negative resolved count and fuel for one more test, the run
    returns. *)
Lemma rawWordObj_returns (I : PhoneticWordObject -> Prop) (fuel : nat)
    (rand : nat -> Byte.byte) (overrides : PhoneticOptions) :
  (forall w, I w -> returns (addSyllable w) I) ->
  (forall s, resolvedSeed rand overrides = Ret s ->
             I (startWordObj (resolvedOptions overrides s))) ->
  0 <= or_number (syllables overrides) 3 < Z.of_nat fuel ->
  returns (rawWordObj fuel rand overrides) I.
Proof.
  intros Hstep Hstart Hn. rewrite rawWordObj_eq.
  destruct (resolvedSeed_returns rand overrides) as (s & E). rewrite E.
  cbn [bind]. rewrite syllableLoop_times by exact Hn.
  apply times_invariant; auto.
Qed.

Lemma rawWordObj_negative (fuel : nat) (rand : nat -> Byte.byte)
    (overrides : PhoneticOptions) :
  or_number (syllables overrides) 3 < 0 ->
  rawWordObj fuel rand overrides = OutOfFuel.
Proof.
  intro H. rewrite rawWordObj_eq.
  destruct (resolvedSeed_returns rand overrides) as (s & ->). cbn [bind].
  apply syllableLoop_negative, H.
Qed.

(** C9.  The word is a concatenation of entries of PHONETIC_PRE,
    PHONETIC_MID and PHONETIC_POST at every stage: a call of [addSyllable]
    on such a word returns such a word; for all options the word handed to
    [postProcess], when the loop ends, is one; and the loop does end when
    the resolved number of syllables is not negative. *)
Theorem raw_word_is_made_of_fragments (fuel : nat) (rand : nat -> Byte.byte)
    (options : PhoneticOptions) (wordObj : PhoneticWordObject) :
  fragmentWord (word wordObj) ->
  returns (addSyllable wordObj) (fun w => fragmentWord (word w))
  /\ (rawWordObj fuel rand options = OutOfFuel
      \/ returns (rawWordObj fuel rand options) (fun w => fragmentWord (word w)))
  /\ (0 <= or_number (syllables options) 3 < Z.of_nat fuel ->
      returns (rawWordObj fuel rand options) (fun w => fragmentWord (word w))).
Proof.
  intro Hw. split; [apply addSyllable_fragments, Hw |]. split.
  - apply rawWordObj_invariant.
    + apply addSyllable_fragments.
    + intros s _. apply fragmentWord_empty.
  - apply rawWordObj_returns.
    + apply addSyllable_fragments.
    + intros s _. apply fragmentWord_empty.
Qed.

Lemma raw_word_is_made_of_fragments_witness :
  fragmentWord
    (word (mkWordObj 6847466321 false false "p"
             (mkOptions None (Some "a") None None None)))
  /\ returns
       (addSyllable (mkWordObj 6847466321 false false "p"
                       (mkOptions None (Some "a") None None None)))
       (fun w => fragmentWord (word w))
  /\ returns
       (rawWordObj 4 (fun _ => Byte.x00) (mkOptions None (Some "a") None None None))
       (fun w => fragmentWord (word w)).
Proof.
  assert (H : fragmentWord
                (word (mkWordObj 6847466321 false false "p"
                         (mkOptions None (Some "a") None None None)))).
  { exists ["p"]. split; [| reflexivity].
    constructor; [| constructor]. left. simpl. tauto. }
  split; [exact H |].
  destruct (raw_word_is_made_of_fragments 4 (fun _ => Byte.x00)
              (mkOptions None (Some "a") None None None) _ H) as (H1 & _ & H3).
  split; [exact H1 |]. apply H3. simpl. lia.
Defined.

(** C4 (the failing run).  With [syllables: -1] the test [syllables--] sees
    -1, -2, ... and never zero: whatever the fuel, [generate] does not
    return. *)
Theorem generate_negative_syllables_diverges (fuel : nat)
    (rand : nat -> Byte.byte) :
  generate fuel rand (mkOptions (Some (-1)) (Some "a") None None None)
  = OutOfFuel.
Proof.
  unfold generate. rewrite rawWordObj_negative; [reflexivity |].
  simpl. lia.
Qed.

(** ** postProcess *)

Lemma RegExp_REPLACEMENTS :
  Forall2 (fun entry compiled =>
             RegExp (fst entry) = Ret (fst compiled) /\ snd entry = snd compiled)
    REPLACEMENTS compiledReplacements.
Proof. repeat constructor. Qed.

Lemma replacements_fold (table : list (string * string))
    (compiled : list (regex * string)) :
  Forall2 (fun entry c => RegExp (fst entry) = Ret (fst c) /\ snd entry = snd c)
    table compiled ->
  forall wordObj,
    fold_left
      (fun acc entry =>
         w <- acc ;;
         regex <- RegExp (fst entry) ;;
         Ret (set_word (replace regex (snd entry) (word w)) w))
      table (Ret wordObj)
    = Ret (set_word (applyReplacements compiled (word wordObj)) wordObj).
Proof.
  induction 1 as [| entry c table compiled [Hre Ht] _ IH]; intro wordObj.
  - destruct wordObj; reflexivity.
  - cbn [fold_left bind applyReplacements]. rewrite Hre, Ht. cbn [bind].
    rewrite IH. reflexivity.
Qed.

Lemma postProcess_eq (wordObj : PhoneticWordObject) :
  postProcess wordObj
  = Ret (if truthy (capFirst (opts wordObj))
         then capFirst_ (applyReplacements compiledReplacements (word wordObj))
         else applyReplacements compiledReplacements (word wordObj)).
Proof.
  unfold postProcess.
  rewrite (replacements_fold _ _ RegExp_REPLACEMENTS). cbn [bind set_word opts word].
  destruct (truthy _); reflexivity.
Qed.

(** The search looks at the positions in turn. *)
Lemma search_leftmost (r : regex) (input : string) (fuel : nat) :
  forall start,
    match search fuel r input start with
    | Some (s, e, cs) =>
        (start <= s <= start + fuel)%nat
        /\ match_at r input s = Some (e, cs)
        /\ (forall pos, (start <= pos < s)%nat -> match_at r input pos = None)
    | None =>
        forall pos, (start <= pos <= start + fuel)%nat -> match_at r input pos = None
    end.
Proof.
  induction fuel as [| fuel IH]; intro start; cbn [search].
  - destruct (match_at r input start) as [[e cs] |] eqn:E.
    + split; [lia | split; [exact E | intros pos Hpos; lia]].
    + intros pos Hpos. replace pos with start by lia. exact E.
  - destruct (match_at r input start) as [[e cs] |] eqn:E.
    + split; [lia | split; [exact E | intros pos Hpos; lia]].
    + specialize (IH (S start)).
      destruct (search fuel r input (S start)) as [[[s e] cs] |].
      * destruct IH as (Hs & Hm & Hbefore).
        split; [lia | split; [exact Hm |]].
        intros pos Hpos. destruct (Nat.eq_dec pos start) as [-> | Hne]; auto.
        apply Hbefore. lia.
      * intros pos Hpos. destruct (Nat.eq_dec pos start) as [-> | Hne]; auto.
        apply IH. lia.
Qed.

(** ** No empty word after a syllable *)

Lemma append_nonempty_l (s1 s2 : string) : s1 <> "" -> s1 ++ s2 <> "".
Proof. destruct s1; simpl; [congruence | discriminate]. Qed.

Lemma append_nonempty_r (s1 s2 : string) : s2 <> "" -> s1 ++ s2 <> "".
Proof. destruct s1; simpl; [auto | discriminate]. Qed.

Lemma PHONETIC_MID_nonempty (s : string) : In s PHONETIC_MID -> s <> "".
Proof.
  unfold PHONETIC_MID. intro H.
  repeat (destruct H as [<- | H]; [discriminate |]). contradiction.
Qed.

Lemma addSyllable_nonempty (wordObj : PhoneticWordObject) :
  returns (addSyllable wordObj) (fun w => word w <> "").
Proof.
  apply (addSyllable_rule (fun _ => True) (fun w => word w <> "")); auto.
  - intros. rewrite appendNextPhonetic_eq. exact I.
  - intros w forceSimple _. rewrite appendNextPhonetic_eq. cbn [returns word].
    destruct (phoneticIndex_bounds PHONETIC_MID PHONETIC_MID_SIMPLE_LENGTH
                w forceSimple) as (i & -> & Hi); [simpl; tauto |].
    destruct (subscript_in_bounds PHONETIC_MID i Hi) as (s & -> & Hs).
    apply append_nonempty_r, PHONETIC_MID_nonempty, Hs.
  - intros w forceSimple Hw. rewrite appendNextPhonetic_eq. cbn [returns word].
    apply append_nonempty_l, Hw.
Qed.

Lemma times_nonempty (n : nat) :
  forall wordObj,
    returns (times (S n) addSyllable wordObj) (fun w => word w <> "").
Proof.
  induction n as [| n IH]; intro wordObj.
  - cbn [times]. apply returns_bind.
    eapply returns_weaken; [apply addSyllable_nonempty | auto].
  - change (times (S (S n)) addSyllable wordObj)
      with (w <- addSyllable wordObj ;; times (S n) addSyllable w).
    destruct (addSyllable_returns wordObj) as (w & ->). cbn [bind]. apply IH.
Qed.

Lemma replace_nonempty (r : regex) (template input : string) :
  (forall cs, expand template cs <> "") ->
  input <> "" -> replace r template input <> "".
Proof.
  intros Ht Hin. unfold replace.
  destruct (exec r input) as [[[s e] cs] |]; [| exact Hin].
  apply append_nonempty_r, append_nonempty_l, Ht.
Qed.

Lemma compiledReplacements_templates :
  Forall (fun entry => forall cs, expand (snd entry) cs <> "") compiledReplacements.
Proof.
  unfold compiledReplacements.
  repeat constructor; intro cs; cbn;
    try discriminate; apply append_nonempty_r; discriminate.
Qed.

Lemma applyReplacements_nonempty (table : list (regex * string)) :
  Forall (fun entry => forall cs, expand (snd entry) cs <> "") table ->
  forall s, s <> "" -> applyReplacements table s <> "".
Proof.
  induction 1 as [| entry table He _ IH]; intros s Hs; [exact Hs |].
  cbn [applyReplacements fold_left]. apply IH, replace_nonempty; auto.
Qed.

Lemma capFirst_nonempty (str : string) : str <> "" -> capFirst_ str <> "".
Proof. destruct str; simpl; [auto | discriminate]. Qed.

Lemma postProcess_nonempty (wordObj : PhoneticWordObject) :
  word wordObj <> "" -> returns (postProcess wordObj) (fun out => out <> "").
Proof.
  intro Hw. rewrite postProcess_eq. cbn [returns].
  pose proof (applyReplacements_nonempty _ compiledReplacements_templates _ Hw) as H.
  destruct (truthy _); [apply capFirst_nonempty |]; exact H.
Qed.

(** C3 (as amended).  A [syllables] of zero is falsy, so [getOptions]
    resolves it as it resolves an absent one, to the default 3: the loop
    calls [addSyllable] three times, the raw word is not empty, and
    [generate] returns a word that is not empty. *)
Theorem generate_zero_syllables_is_default (fuel : nat) (rand : nat -> Byte.byte)
    (se : option string) (ps cs : option Z) (cf : option boolOrUndefined) :
  (3 < fuel)%nat ->
  getOptions rand (mkOptions (Some 0) se ps cs cf)
  = getOptions rand (mkOptions None se ps cs cf)
  /\ returns (getOptions rand (mkOptions (Some 0) se ps cs cf))
       (fun options => syllables options = Some 3)
  /\ rawWordObj fuel rand (mkOptions (Some 0) se ps cs cf)
     = (options <- getOptions rand (mkOptions (Some 0) se ps cs cf) ;;
        wordObj <- initialWordObj options ;;
        times 3 addSyllable wordObj)
  /\ returns (rawWordObj fuel rand (mkOptions (Some 0) se ps cs cf))
       (fun w => word w <> "")
  /\ returns (generate fuel rand (mkOptions (Some 0) se ps cs cf))
       (fun out => out <> "").
Proof.
  intro Hfuel.
  assert (Eraw : rawWordObj fuel rand (mkOptions (Some 0) se ps cs cf)
                 = (options <- getOptions rand (mkOptions (Some 0) se ps cs cf) ;;
                    wordObj <- initialWordObj options ;;
                    times 3 addSyllable wordObj)).
  { rewrite rawWordObj_eq, getOptions_eq.
    destruct (resolvedSeed rand _) as [s | |]; cbn [bind]; auto.
    rewrite initialWordObj_eq. cbn [bind].
    rewrite syllableLoop_times by (simpl; lia). reflexivity. }
  assert (Hraw : returns (rawWordObj fuel rand (mkOptions (Some 0) se ps cs cf))
                   (fun w => word w <> "")).
  { rewrite Eraw, getOptions_eq.
    destruct (resolvedSeed_returns rand (mkOptions (Some 0) se ps cs cf)) as (s & ->).
    cbn [bind]. rewrite initialWordObj_eq. cbn [bind]. apply times_nonempty. }
  split; [reflexivity |]. split.
  { rewrite getOptions_eq.
    destruct (resolvedSeed_returns rand (mkOptions (Some 0) se ps cs cf)) as (s & ->).
    reflexivity. }
  split; [exact Eraw |]. split; [exact Hraw |].
  unfold generate. apply returns_bind.
  eapply returns_weaken; [exact Hraw |].
  intros w Hw. apply postProcess_nonempty, Hw.
Qed.

Lemma generate_zero_syllables_is_default_witness :
  (3 < 4)%nat
  /\ returns
       (generate 4 (fun _ => Byte.x00) (mkOptions (Some 0) None None None (Some (Boolean false))))
       (fun out => out <> "").
Proof.
  split; [lia |].
  apply (generate_zero_syllables_is_default 4 (fun _ => Byte.x00) None None None
           (Some (Boolean false))).
  lia.
Defined.

(** With [syllables: 0] and [capFirst: false], and an entropy source that
    yields zero bytes, [generate] returns "fudujie", not the empty string. *)
Lemma generate_zero_syllables_counterexample :
  generate 4 (fun _ => Byte.x00) (mkOptions (Some 0) None None None (Some (Boolean false)))
  = Ret "fudujie"
  /\ generate 4 (fun _ => Byte.x00) (mkOptions (Some 0) None None None (Some (Boolean false)))
     <> Ret "".
Proof.
  split.
  - vm_compute. reflexivity.
  - intro H. vm_compute in H. discriminate H.
Qed.

(** ** The syllables read two options only *)

Lemma appendNextPhonetic_withOptions (options : PhoneticOptions)
    (phoneticSet : list string) (simpleCap : Z) (w : PhoneticWordObject)
    (forceSimple : bool) :
  phoneticSimplicity options = phoneticSimplicity (opts w) ->
  appendNextPhonetic phoneticSet simpleCap (withOptions options w) forceSimple
  = w' <- appendNextPhonetic phoneticSet simpleCap w forceSimple ;;
    Ret (withOptions options w').
Proof.
  intro H. rewrite !appendNextPhonetic_eq. cbn [bind].
  unfold withOptions, phoneticIndex, phoneticCap, hashedText.
  cbn [numeric word opts lastSkippedPre lastSkippedPost]. rewrite H. reflexivity.
Qed.

Lemma appendNextPhonetic_opts (phoneticSet : list string) (simpleCap : Z)
    (w : PhoneticWordObject) (forceSimple : bool) :
  returns (appendNextPhonetic phoneticSet simpleCap w forceSimple)
    (fun w' => opts w' = opts w).
Proof. rewrite appendNextPhonetic_eq. reflexivity. Qed.

Lemma addSyllable_withOptions (options : PhoneticOptions) (w : PhoneticWordObject) :
  phoneticSimplicity options = phoneticSimplicity (opts w) ->
  compoundSimplicity options = compoundSimplicity (opts w) ->
  addSyllable (withOptions options w)
  = w' <- addSyllable w ;; Ret (withOptions options w').
Proof.
  intros Hps Hcs. unfold addSyllable.
  cbn [withOptions numeric word opts lastSkippedPre lastSkippedPost].
  rewrite Hcs.
  set (compound := is_zero _). set (first := (word w =? "")%string).
  set (preOnFirst := is_positive _).
  assert (Htail : forall w1,
             phoneticSimplicity options = phoneticSimplicity (opts w1) ->
             (w2 <- appendNextPhonetic PHONETIC_MID PHONETIC_MID_SIMPLE_LENGTH
                      (withOptions options w1)
                      (first && lastSkippedPre (withOptions options w1)) ;;
              if lastSkippedPre w2 || compound
              then
                w3 <- appendNextPhonetic PHONETIC_POST PHONETIC_POST_SIMPLE_LENGTH
                        w2 false ;;
                Ret (set_lastSkippedPost false w3)
              else Ret (set_lastSkippedPost true w2))
             = w' <- (w2 <- appendNextPhonetic PHONETIC_MID PHONETIC_MID_SIMPLE_LENGTH
                              w1 (first && lastSkippedPre w1) ;;
                      if lastSkippedPre w2 || compound
                      then
                        w3 <- appendNextPhonetic PHONETIC_POST
                                PHONETIC_POST_SIMPLE_LENGTH w2 false ;;
                        Ret (set_lastSkippedPost false w3)
                      else Ret (set_lastSkippedPost true w2)) ;;
               Ret (withOptions options w')).
  { intros w1 H1.
    rewrite appendNextPhonetic_withOptions by exact H1.
    cbn [withOptions lastSkippedPre].
    pose proof (appendNextPhonetic_opts PHONETIC_MID PHONETIC_MID_SIMPLE_LENGTH
                  w1 (first && lastSkippedPre w1)) as Ho.
    destruct (appendNextPhonetic PHONETIC_MID PHONETIC_MID_SIMPLE_LENGTH w1 _)
      as [w2 | |]; cbn [bind returns] in *; auto.
    cbn [withOptions lastSkippedPre].
    destruct (lastSkippedPre w2 || compound); [| reflexivity].
    rewrite appendNextPhonetic_withOptions by congruence.
    destruct (appendNextPhonetic PHONETIC_POST PHONETIC_POST_SIMPLE_LENGTH w2 false);
      reflexivity. }
  destruct (first && preOnFirst || lastSkippedPost w || compound).
  - rewrite appendNextPhonetic_withOptions by exact Hps.
    pose proof (appendNextPhonetic_opts PHONETIC_PRE PHONETIC_PRE_SIMPLE_LENGTH
                  w false) as Ho.
    destruct (appendNextPhonetic PHONETIC_PRE PHONETIC_PRE_SIMPLE_LENGTH w false)
      as [w1 | |]; cbn [bind returns] in *; auto.
    apply (Htail (set_lastSkippedPre false w1)). cbn [set_lastSkippedPre opts].
    congruence.
  - cbn [bind]. apply (Htail (set_lastSkippedPre true w)). exact Hps.
Qed.

(** ** The options travel unchanged *)

Lemma addSyllable_opts (options : PhoneticOptions) (wordObj : PhoneticWordObject) :
  opts wordObj = options ->
  returns (addSyllable wordObj) (fun w => opts w = options).
Proof.
  apply (addSyllable_invariant (fun w => opts w = options)); auto.
  intros set cap w f _ <-. apply appendNextPhonetic_opts.
Qed.

Lemma syllableLoop_withOptions (options : PhoneticOptions) (fuel : nat) :
  forall syllables w,
    phoneticSimplicity options = phoneticSimplicity (opts w) ->
    compoundSimplicity options = compoundSimplicity (opts w) ->
    syllableLoop fuel syllables (withOptions options w)
    = w' <- syllableLoop fuel syllables w ;; Ret (withOptions options w').
Proof.
  induction fuel as [| fuel IH]; intros syllables w Hps Hcs; [reflexivity |].
  cbn [syllableLoop]. destruct (syllables =? 0); [reflexivity |].
  rewrite addSyllable_withOptions by assumption.
  destruct (returns_inv _ _ (addSyllable_opts _ w eq_refl)) as (w1 & -> & Ho).
  cbn [bind]. apply IH; congruence.
Qed.

(** ** Option resolution *)

(** C5 (as amended).  Whatever the options, a provided
    [phoneticSimplicity] or [compoundSimplicity] of zero is falsy and
    resolves to the default 5, every other provided integer [v] of either
    field resolves to [max(v, 1)], and an absent field resolves to 5; both
    resolved values are at least 1.  The word object is built from the
    resolved options, so the first hash and every later one come after the
    resolution, and the word object carries the resolved options unchanged
    to [postProcess]. *)
Theorem getOptions_clamps_simplicity (fuel : nat) (rand : nat -> Byte.byte)
    (overrides : PhoneticOptions) :
  returns (getOptions rand overrides)
    (fun options =>
       phoneticSimplicity options
       = Some (match phoneticSimplicity overrides with
               | Some 0 => 5
               | Some v => Z.max v 1
               | None => 5
               end)
       /\ compoundSimplicity options
          = Some (match compoundSimplicity overrides with
                  | Some 0 => 5
                  | Some v => Z.max v 1
                  | None => 5
                  end)
       /\ exists p c,
            phoneticSimplicity options = Some p
            /\ compoundSimplicity options = Some c
            /\ 1 <= p /\ 1 <= c)
  /\ rawWordObj fuel rand overrides
     = (options <- getOptions rand overrides ;;
        syllableLoop fuel (or_number (syllables options) 3) (startWordObj options))
  /\ (rawWordObj fuel rand overrides = OutOfFuel
      \/ returns (rawWordObj fuel rand overrides)
           (fun w => getOptions rand overrides = Ret (opts w))).
Proof.
  split; [| split].
  - rewrite getOptions_eq.
    destruct (resolvedSeed_returns rand overrides) as (s & ->).
    cbn [bind returns phoneticSimplicity compoundSimplicity].
    split; [| split].
    + destruct (phoneticSimplicity overrides) as [[| p | p] |]; reflexivity.
    + destruct (compoundSimplicity overrides) as [[| p | p] |]; reflexivity.
    + do 2 eexists. split; [reflexivity |]. split; [reflexivity |].
      split; apply resolvedSimplicity_pos.
  - unfold rawWordObj.
    destruct (getOptions rand _) as [options | |]; cbn [bind]; auto.
    rewrite initialWordObj_eq. reflexivity.
  - apply rawWordObj_invariant.
    + intros w Hw. eapply returns_weaken; [apply addSyllable_opts; reflexivity |].
      cbv beta. intros w' ->. exact Hw.
    + intros s Hs. rewrite getOptions_eq, Hs. reflexivity.
Qed.

(** A [phoneticSimplicity] of 0 resolves to 5, which is not [max(0, 1)]. *)
Lemma getOptions_simplicity_zero_counterexample :
  returns
    (getOptions (fun _ => Byte.x00) (mkOptions None (Some "a") (Some 0) None None))
    (fun options =>
       phoneticSimplicity options = Some 5
       /\ phoneticSimplicity options <> Some (Z.max 0 1)).
Proof. cbn. split; [reflexivity | discriminate]. Qed.

(** ** Determinism *)

Lemma resolvedSeed_explicit (rand : nat -> Byte.byte) (sy : option Z) (s : string)
    (ps cs : option Z) (cf : option boolOrUndefined) :
  s <> "" -> resolvedSeed rand (mkOptions sy (Some s) ps cs cf) = Ret s.
Proof.
  intro H. unfold resolvedSeed. cbn [seed].
  destruct (String.eqb_spec s ""); [contradiction | reflexivity].
Qed.





(** ** Capitalisation *)




(** ** Matches lie inside the input *)

Lemma get_Some_lt (s : string) :
  forall n c, get n s = Some c -> (n < String.length s)%nat.
Proof.
  induction s as [| d s IH]; intros n c H; [discriminate H |].
  destruct n as [| n]; simpl in *; [lia |].
  apply IH in H. lia.
Qed.

Lemma rmatch_inside (r : regex) :
  forall (X : Type) input pos cs (k : nat -> captures -> option X) x,
    (pos <= String.length input)%nat ->
    rmatch X r input pos cs k = Some x ->
    exists p c, (pos <= p <= String.length input)%nat /\ k p c = Some x.
Proof.
  induction r as [| c | set | | | | r IH | r1 IH1 r2 IH2 | r1 IH1 r2 IH2
                 | n r IH | n r IH];
    intros X input pos cs k x Hpos H; cbn [rmatch] in H.
  - exists pos, cs. split; [lia | exact H].
  - destruct (get pos input) as [d |] eqn:G; [| discriminate H].
    destruct (Ascii.eqb c d); [| discriminate H].
    apply get_Some_lt in G. exists (S pos), cs. split; [lia | exact H].
  - destruct (get pos input) as [d |] eqn:G; [| discriminate H].
    destruct (mem d set); [| discriminate H].
    apply get_Some_lt in G. exists (S pos), cs. split; [lia | exact H].
  - destruct (get pos input) as [d |] eqn:G; [| discriminate H].
    destruct (line_end d); [discriminate H |].
    apply get_Some_lt in G. exists (S pos), cs. split; [lia | exact H].
  - destruct (Nat.eqb pos 0); [| discriminate H].
    exists pos, cs. split; [lia | exact H].
  - destruct (Nat.eqb pos (String.length input)); [| discriminate H].
    exists pos, cs. split; [lia | exact H].
  - destruct (rmatch unit r input pos cs _); [discriminate H |].
    exists pos, cs. split; [lia | exact H].
  - apply IH1 in H; [| exact Hpos]. destruct H as (p1 & c1 & Hp1 & H).
    apply IH2 in H; [| lia]. destruct H as (p2 & c2 & Hp2 & H).
    exists p2, c2. split; [lia | exact H].
  - destruct (rmatch X r1 input pos cs k) as [y |] eqn:E.
    + injection H as ->. eapply IH1; eauto.
    + eapply IH2; eauto.
  - apply IH in H; [| exact Hpos]. destruct H as (p & c & Hp & H).
    eauto.
  - revert pos cs Hpos H. induction n as [| n IHn]; intros pos cs Hpos H.
    + exists pos, cs. split; [lia | exact H].
    + apply IH in H; [| exact Hpos]. destruct H as (p & c & Hp & H).
      apply IHn in H; [| lia]. destruct H as (p' & c' & Hp' & H).
      exists p', c'. split; [lia | exact H].
Qed.

Lemma match_at_inside (r : regex) (input : string) (pos e : nat) (cs : captures) :
  (pos <= String.length input)%nat ->
  match_at r input pos = Some (e, cs) ->
  (pos <= e <= String.length input)%nat.
Proof.
  intros Hpos H. unfold match_at in H.
  apply rmatch_inside in H; [| exact Hpos].
  destruct H as (p & c & Hp & H). injection H as <- <-. exact Hp.
Qed.

(** The pieces of a string around a segment. *)
Lemma substring_cut (s : string) :
  forall b, (b <= String.length s)%nat -> s = substring 0 b s ++ from b s.
Proof.
  unfold from. induction s as [| c s IH]; intros b H.
  - destruct b; reflexivity.
  - destruct b as [| b].
    + simpl. f_equal. rewrite (IH 0%nat) at 1 by lia.
      rewrite Nat.sub_0_r. destruct s; reflexivity.
    + simpl. f_equal. apply IH. simpl in H. lia.
Qed.

Lemma substring_split (s : string) :
  forall a b,
    (a <= b <= String.length s)%nat ->
    s = substring 0 a s ++ substring a (b - a) s ++ from b s.
Proof.
  induction s as [| c s IH]; intros a b H.
  - simpl in H. replace a with 0%nat by lia. replace b with 0%nat by lia.
    reflexivity.
  - destruct a as [| a].
    + rewrite Nat.sub_0_r. change (substring 0 0 (String c s)) with "".
      apply substring_cut. lia.
    + destruct b as [| b]; [lia |].
      unfold from in *. simpl. f_equal. apply IH. simpl in H. lia.
Qed.

Lemma substring_length (s : string) :
  forall n m,
    (n + m <= String.length s)%nat -> String.length (substring n m s) = m.
Proof.
  induction s as [| c s IH]; intros n m H.
  - simpl in H. replace n with 0%nat by lia. replace m with 0%nat by lia.
    reflexivity.
  - destruct n as [| n]; destruct m as [| m]; simpl in *; auto.
    + f_equal. apply IH. lia.
    + apply IH. lia.
    + apply IH. lia.
Qed.

Lemma append_inj (a a' b b' : string) :
  String.length a = String.length a' -> a ++ b = a' ++ b' -> a = a' /\ b = b'.
Proof.
  revert a'. induction a as [| c a IH]; intros [| c' a'] Hlen H;
    try discriminate Hlen.
  - simpl in H. auto.
  - simpl in *. injection H as -> H. injection Hlen as Hlen.
    destruct (IH a' Hlen H) as [-> ->]. auto.
Qed.

(** ** replace: the leftmost match and nothing else *)

Lemma replace_first_match (r : regex) (template input : string) :
  replacesFirstMatch r template input (replace r template input).
Proof.
  unfold replacesFirstMatch, replace, exec.
  pose proof (search_leftmost r input (String.length input) 0) as H.
  destruct (search (String.length input) r input 0) as [[[s e] cs] |].
  - left. destruct H as (Hs & Hm & Hbefore).
    assert (He : (s <= e <= String.length input)%nat)
      by (eapply match_at_inside; [lia | exact Hm]).
    assert (Ls : String.length (substring 0 s input) = s)
      by (apply substring_length; lia).
    assert (Lm : String.length (substring s (e - s) input) = (e - s)%nat)
      by (apply substring_length; lia).
    exists (substring 0 s input), (substring s (e - s) input), (from e input), cs.
    rewrite Ls, Lm. replace (s + (e - s))%nat with e by lia.
    repeat split; auto.
    + apply substring_split. exact He.
    + intros pos Hpos. apply Hbefore. lia.
  - right. split; [| reflexivity]. intros pos Hpos. apply H. lia.
Qed.

Lemma replacesFirstMatch_unique (r : regex) (template input out1 out2 : string) :
  replacesFirstMatch r template input out1 ->
  replacesFirstMatch r template input out2 ->
  out1 = out2.
Proof.
  intros [(b1 & m1 & a1 & cs1 & E1 & M1 & N1 & ->) | (N1 & ->)]
         [(b2 & m2 & a2 & cs2 & E2 & M2 & N2 & ->) | (N2 & ->)].
  - assert (Hb : String.length b1 = String.length b2).
    { destruct (Nat.lt_trichotomy (String.length b1) (String.length b2))
        as [Hlt | [Heq | Hgt]]; [| exact Heq |].
      - rewrite (N2 _ Hlt) in M1. discriminate M1.
      - rewrite (N1 _ Hgt) in M2. discriminate M2. }
    rewrite Hb in M1. rewrite M1 in M2. injection M2 as Hm <-.
    rewrite E1 in E2 at 1.
    destruct (append_inj _ _ _ _ Hb E2) as [<- E3].
    assert (Hm' : String.length m1 = String.length m2) by lia.
    destruct (append_inj _ _ _ _ Hm' E3) as [_ <-]. reflexivity.
  - rewrite N2 in M1; [discriminate M1 |].
    rewrite E1, append_length. lia.
  - rewrite N1 in M2; [discriminate M2 |].
    rewrite E2, append_length. lia.
  - reflexivity.
Qed.

Lemma applyReplacements_in_order (table : list (regex * string)) :
  forall input, replacedInOrder table input (applyReplacements table input).
Proof.
  induction table as [| entry table IH]; intro input; [reflexivity |].
  cbn [replacedInOrder applyReplacements fold_left].
  exists (replace (fst entry) (snd entry) input).
  split; [apply replace_first_match | apply IH].
Qed.

Lemma replacedInOrder_unique (table : list (regex * string)) :
  forall input out1 out2,
    replacedInOrder table input out1 -> replacedInOrder table input out2 ->
    out1 = out2.
Proof.
  induction table as [| entry table IH]; intros input out1 out2 H1 H2.
  - cbn in *. congruence.
  - destruct H1 as (mid1 & F1 & R1). destruct H2 as (mid2 & F2 & R2).
    rewrite (replacesFirstMatch_unique _ _ _ _ _ F1 F2) in R1.
    eapply IH; eauto.
Qed.

(** Runs of [postProcess]: one replacement per pattern, the leftmost match
    only, in the order of the table. *)
Example postProcess_runs :
  map (fun w =>
         postProcess (mkWordObj 0 false false w
                        (mkOptions None None None None (Some (Boolean false)))))
    [ "quu"; "quaeb"; "biy"; "eye"; "bye"; "cieb"; "cie"; "becieb"; "buz";
      "biw"; "quuz"; "xcieb"; "quiy"; "z"; ""; "quuquu"; "zye"; "eciecieb" ]
  = map Ret
      [ "que"; "queb"; "bey"; "ye"; "by"; "ceib"; "cie"; "beceib"; "buze";
        "bow"; "queze"; "xcieb"; "quey"; "ze"; ""; "quequu"; "zy"; "eceicieb" ].
Proof. vm_compute. reflexivity. Qed.

(** ** Runs of [generate] *)

Example generate_seed_a :
  generate 4 (fun _ => Byte.x00) (mkOptions None (Some "a") None None None)
  = Ret "Pepitie".
Proof. vm_compute. reflexivity. Qed.

Example generate_seed_b_lower :
  generate 4 (fun _ => Byte.x00) (mkOptions None (Some "b") None None (Some (Boolean false)))
  = Ret "nanosas".
Proof. vm_compute. reflexivity. Qed.

Example getDerivative_100 : getDerivative 100 = 5%N.
Proof. reflexivity. Qed.
(** ** getDerivative: one more than the sum of the base-7 digits *)

Lemma getDerivative_loop_acc (fuel : nat) :
  forall derivative k num,
    getDerivative_loop fuel (derivative + k)%N num
    = (getDerivative_loop fuel derivative num + k)%N.
Proof.
  induction fuel as [| fuel IH]; intros derivative k num; [reflexivity |].
  cbn [getDerivative_loop]. destruct (N.eqb num 0); [reflexivity |].
  rewrite <- IH. f_equal. lia.
Qed.

Lemma getDerivative_step (num : N) :
  num <> 0%N ->
  getDerivative num = (getDerivative (num / 7) + num mod 7)%N.
Proof.
  intro H. unfold getDerivative. rewrite getDerivative_loop_turn by exact H.
  apply getDerivative_loop_acc.
Qed.

Lemma getDerivative_le (num : N) : (1 <= getDerivative num <= num + 1)%N.
Proof.
  induction num as [num IH] using (well_founded_induction N.lt_wf_0).
  destruct (N.eq_dec num 0) as [-> | Hnz]; [vm_compute; split; discriminate |].
  rewrite (getDerivative_step num Hnz).
  assert (Hlt : (num / 7 < num)%N) by (apply N.div_lt; lia).
  specialize (IH _ Hlt).
  pose proof (N.div_mod' num 7) as Hdm.
  set (q := (num / 7)%N) in *. set (r := (num mod 7)%N) in *.
  clearbody q r. lia.
Qed.

(** X1.  On the integers below [2^53], where the arithmetic of the loop
    is exact, [getDerivative(0)] is 1, and for a number other than zero the
    derivative is the derivative of [floor(num / 7)] plus [num % 7]: one
    more than the sum of the digits of [num] in base 7, hence at least 1
    and at most [num + 1]. *)
Theorem getDerivative_digits (num : N) :
  (num < 2 ^ 53)%N ->
  num <> 0%N ->
  getDerivative 0 = 1%N
  /\ getDerivative num = (getDerivative (num / 7) + num mod 7)%N
  /\ (1 <= getDerivative num <= num + 1)%N.
Proof.
  intros _ H. split; [reflexivity |]. split.
  - apply getDerivative_step, H.
  - apply getDerivative_le.
Qed.

Lemma getDerivative_digits_witness :
  (100 < 2 ^ 53)%N
  /\ 100%N <> 0%N
  /\ getDerivative 100 = (getDerivative (100 / 7) + 100 mod 7)%N.
Proof.
  split; [reflexivity |]. split; [discriminate |].
  apply (getDerivative_digits 100); [reflexivity | discriminate].
Defined.

Lemma getDerivative_mod (num : N) :
  (getDerivative num mod 6 = (num + 1) mod 6)%N.
Proof.
  induction num as [num IH] using (well_founded_induction N.lt_wf_0).
  destruct (N.eq_dec num 0) as [-> | Hnz]; [reflexivity |].
  rewrite (getDerivative_step num Hnz).
  assert (Hlt : (num / 7 < num)%N) by (apply N.div_lt; lia).
  specialize (IH _ Hlt).
  pose proof (N.div_mod' num 7) as Hdm.
  pose proof (N.mod_lt num 7 ltac:(discriminate)) as Hr.
  set (q := (num / 7)%N) in *. set (r := (num mod 7)%N) in *.
  rewrite <- N.Div0.add_mod_idemp_l, IH, N.Div0.add_mod_idemp_l.
  rewrite Hdm at 1.
  replace (7 * q + r + 1)%N with (q + 1 + r + q * 6)%N by lia.
  rewrite N.Div0.mod_add. reflexivity.
Qed.

(** X2.  On the integers below [2^53]: as 7 is 1 modulo 6, the derivative
    and [num + 1] leave the same remainder modulo 6, so the test
    [deriv % 6 > 0] of [addSyllable] ([preOnFirst]) fails exactly when
    [num + 1] is a multiple of 6. *)
Theorem getDerivative_mod_6 (num : N) :
  (num < 2 ^ 53)%N ->
  (getDerivative num mod 6 = (num + 1) mod 6)%N
  /\ is_positive (js_rem (Z.of_N (getDerivative num)) 6)
     = negb ((num + 1) mod 6 =? 0)%N.
Proof.
  intros _. pose proof (getDerivative_mod num) as H.
  split; [exact H |].
  unfold js_rem. cbn [Z.eqb is_positive].
  rewrite Z.rem_mod_nonneg; [| apply N2Z.is_nonneg | reflexivity].
  change 6 with (Z.of_N 6). rewrite <- N2Z.inj_mod, H.
  set (x := ((num + 1) mod 6)%N).
  destruct (N.eqb_spec x 0) as [-> | Hne]; [reflexivity |].
  cbn [negb]. apply Z.ltb_lt. lia.
Qed.

Lemma getDerivative_mod_6_witness :
  (5 < 2 ^ 53)%N
  /\ (getDerivative 5 mod 6 = (5 + 1) mod 6)%N
  /\ is_positive (js_rem (Z.of_N (getDerivative 5)) 6) = false.
Proof.
  split; [reflexivity |].
  apply (getDerivative_mod_6 5). reflexivity.
Defined.

(** ** The numeric state stays in the range of exact arithmetic *)

Lemma nth_byte (bytes : list N) (i : nat) :
  Forall (fun b => (b < 256)%N) bytes -> (nth i bytes 0 < 256)%N.
Proof.
  intro H. revert i. induction H as [| b bytes Hb _ IH]; intros [| i]; simpl;
    auto; lia.
Qed.

Lemma word32_le_bound (bytes : list N) (offset : nat) :
  Forall (fun b => (b < 256)%N) bytes -> (word32_le bytes offset <= 4294967295)%N.
Proof.
  intro H. unfold word32_le.
  pose proof (nth_byte bytes offset H).
  pose proof (nth_byte bytes (offset + 1) H).
  pose proof (nth_byte bytes (offset + 2) H).
  pose proof (nth_byte bytes (offset + 3) H).
  change (2 ^ 8)%N with 256%N. change (2 ^ 16)%N with 65536%N.
  change (2 ^ 24)%N with 16777216%N. lia.
Qed.

Lemma numericHash_bound (data : hashData) : (numericHash data <= 17179869180)%N.
Proof.
  unfold numericHash.
  pose proof (digest_bytes (Md5.appendStr (data_text data ++ "-Phonetic"))) as H.
  pose proof (word32_le_bound _ 0 H). pose proof (word32_le_bound _ 4 H).
  pose proof (word32_le_bound _ 8 H). pose proof (word32_le_bound _ 12 H).
  cbv zeta. lia.
Qed.

(** X3.  The number that [getNumericHash] returns is a sum of four unsigned
    32-bit reads: at most 4 * (2^32 - 1), which may need 34 bits, and far
    below 2^53, the limit of the integers that a JavaScript number holds
    exactly. *)
Theorem getNumericHash_range (data : hashData) :
  returns (getNumericHash data)
    (fun n => (n <= 4 * (2 ^ 32 - 1))%N /\ (n < 2 ^ 53)%N).
Proof.
  rewrite getNumericHash_returns. cbn [returns].
  pose proof (numericHash_bound data) as H.
  change (4 * (2 ^ 32 - 1))%N with 17179869180%N.
  change (2 ^ 53)%N with 9007199254740992%N. lia.
Qed.

(** X4.  After a call of [addSyllable], whatever the word object it was
    given, the numeric is a hash, and the sum [numeric + deriv] that the
    next draw computes is below 2^53: the arithmetic of the generator on
    its state is exact. *)
Theorem addSyllable_numeric_range (wordObj : PhoneticWordObject) :
  returns (addSyllable wordObj)
    (fun w =>
       (numeric w <= 4 * (2 ^ 32 - 1))%N
       /\ (numeric w + getDerivative (numeric w) < 2 ^ 53)%N).
Proof.
  assert (H : returns (addSyllable wordObj)
                (fun w => (numeric w <= 17179869180)%N)).
  { apply (addSyllable_rule (fun _ => True)
             (fun w => (numeric w <= 17179869180)%N)); auto.
    - intros. rewrite appendNextPhonetic_eq. exact I.
    - intros. rewrite appendNextPhonetic_eq. apply numericHash_bound.
    - intros. rewrite appendNextPhonetic_eq. apply numericHash_bound. }
  eapply returns_weaken; [exact H |].
  cbv beta. intros w Hw.
  pose proof (getDerivative_le (numeric w)) as Hd.
  change (4 * (2 ^ 32 - 1))%N with 17179869180%N.
  change (2 ^ 53)%N with 9007199254740992%N. lia.
Qed.

(** ** randomBytes *)

Lemma write_all_pure (rand : nat -> Byte.byte) (offsets : list nat) :
  forall buf,
    Forall (fun i => (i < List.length buf)%nat) offsets ->
    fold_left
      (fun acc i => buf <- acc ;; Buffer.writeUInt8 buf (Byte.to_N (rand i)) i)
      offsets (Ret buf)
    = Ret (fold_left (fun b i => Buffer.set_byte b i (Byte.to_N (rand i)))
             offsets buf).
Proof.
  induction offsets as [| i offsets IH]; intros buf H; [reflexivity |].
  inversion H as [| ? ? Hi Hrest]; subst.
  cbn [fold_left bind]. unfold Buffer.writeUInt8.
  pose proof (Byte.to_N_bounded (rand i)) as Hb.
  apply N.leb_le in Hb. rewrite Hb.
  apply Nat.ltb_lt in Hi. rewrite Hi. cbn [andb].
  apply IH. rewrite set_byte_length. exact Hrest.
Qed.

Lemma write_all_throw (rand : nat -> Byte.byte) (offsets : list nat) (msg : string) :
  fold_left
    (fun acc i => buf <- acc ;; Buffer.writeUInt8 buf (Byte.to_N (rand i)) i)
    offsets (Throw msg)
  = Throw msg.
Proof. induction offsets; simpl; auto. Qed.

Lemma set_byte_middle (front back : list N) (old value : N) :
  Buffer.set_byte (front ++ old :: back) (List.length front) value
  = (front ++ value :: back)%list.
Proof. induction front as [| b front IH]; simpl; [reflexivity | f_equal; exact IH]. Qed.

Lemma write_prefix (rand : nat -> Byte.byte) (size k : nat) :
  (k <= size)%nat ->
  fold_left (fun b i => Buffer.set_byte b i (Byte.to_N (rand i)))
    (seq 0 k) (Buffer.alloc size)
  = (map (fun i => Byte.to_N (rand i)) (seq 0 k) ++ repeat 0%N (size - k))%list.
Proof.
  unfold Buffer.alloc. induction k as [| k IH]; intro H.
  - rewrite Nat.sub_0_r. reflexivity.
  - rewrite seq_S, fold_left_app, map_app, IH by lia. cbn [fold_left map Nat.add].
    replace (size - k)%nat with (S (size - S k)) by lia. cbn [repeat].
    rewrite <- app_assoc. cbn [app].
    pose proof (set_byte_middle (map (fun i => Byte.to_N (rand i)) (seq 0 k))
                  (repeat 0%N (size - S k)) 0%N (Byte.to_N (rand k))) as E.
    rewrite length_map, length_seq in E. exact E.
Qed.

Lemma randomBytes_eq (rand : nat -> Byte.byte) (size : nat) :
  (16 <= size)%nat ->
  randomBytes rand size
  = Ret (map (fun i => Byte.to_N (rand i)) (seq 0 16)
         ++ repeat 0%N (size - 16))%list.
Proof.
  intro H. unfold randomBytes. rewrite write_all_pure.
  - rewrite write_prefix by exact H. reflexivity.
  - apply Forall_forall. intros i Hi. apply in_seq in Hi.
    unfold Buffer.alloc. rewrite repeat_length. lia.
Qed.

(** X5.  For a size of at least 16, [randomBytes] returns a buffer of that
    size whose first sixteen bytes are the sixteen draws, in order, and
    whose other bytes are zero: the loop runs sixteen times whatever the
    size. *)
Theorem randomBytes_fills_sixteen (rand : nat -> Byte.byte) (size : nat) :
  (16 <= size)%nat ->
  exists buf,
    randomBytes rand size = Ret buf
    /\ List.length buf = size
    /\ firstn 16 buf = map (fun i => Byte.to_N (rand i)) (seq 0 16)
    /\ skipn 16 buf = repeat 0%N (size - 16).
Proof.
  intro H. eexists. split; [apply randomBytes_eq, H |].
  assert (L : List.length (map (fun i => Byte.to_N (rand i)) (seq 0 16)) = 16%nat)
    by (rewrite length_map, length_seq; reflexivity).
  split; [| split].
  - rewrite length_app, L, repeat_length. lia.
  - rewrite firstn_app, L, Nat.sub_diag, firstn_O, app_nil_r.
    apply firstn_all2. rewrite L. lia.
  - rewrite skipn_app, L, Nat.sub_diag, skipn_O.
    rewrite skipn_all2 by (rewrite L; lia). reflexivity.
Qed.

Lemma randomBytes_fills_sixteen_witness :
  (16 <= 17)%nat
  /\ exists buf,
       randomBytes (fun _ => Byte.x07) 17 = Ret buf
       /\ List.length buf = 17%nat
       /\ firstn 16 buf = map (fun i => Byte.to_N ((fun _ => Byte.x07) i)) (seq 0 16)
       /\ skipn 16 buf = repeat 0%N (17 - 16).
Proof.
  split; [lia |].
  apply (randomBytes_fills_sixteen (fun _ => Byte.x07) 17). lia.
Defined.

(** X6.  For a size below 16, [randomBytes] throws: the loop writes at the
    offsets 0 to 15 whatever the size, and the write at the offset [size]
    is outside the buffer. *)
Theorem randomBytes_small_throws (rand : nat -> Byte.byte) (size : nat) :
  (size < 16)%nat -> randomBytes rand size = Throw "RangeError".
Proof.
  intro H. unfold randomBytes.
  replace 16%nat with (size + S (15 - size))%nat by lia.
  rewrite seq_app, fold_left_app. rewrite write_all_pure.
  - cbn [seq fold_left bind Nat.add]. unfold Buffer.writeUInt8 at 2.
    rewrite write_prefix by lia. rewrite Nat.sub_diag. cbn [repeat].
    rewrite app_nil_r, length_map, length_seq, Nat.ltb_irrefl, andb_false_r.
    apply write_all_throw.
  - apply Forall_forall. intros i Hi. apply in_seq in Hi.
    unfold Buffer.alloc. rewrite repeat_length. lia.
Qed.

Lemma randomBytes_small_throws_witness :
  (8 < 16)%nat /\ randomBytes (fun _ => Byte.x07) 8 = Throw "RangeError".
Proof.
  split; [lia |].
  apply (randomBytes_small_throws (fun _ => Byte.x07) 8). lia.
Defined.

(** ** getOptions: the random seed and resolved options *)

Lemma toString_base64_sixteen (buf : list N) :
  List.length buf = 16%nat ->
  String.length (Buffer.toString_base64 buf) = 24%nat
  /\ substring 22 2 (Buffer.toString_base64 buf) = "==".
Proof.
  intro H.
  do 16 (destruct buf as [| ? buf]; [discriminate H |]).
  destruct buf; [| discriminate H].
  cbn [Buffer.toString_base64 String.length substring]. split; reflexivity.
Qed.

Lemma resolvedSeed_random (rand : nat -> Byte.byte) (overrides : PhoneticOptions) :
  seed overrides = None \/ seed overrides = Some "" ->
  resolvedSeed rand overrides
  = Ret (Buffer.toString_base64 (map (fun i => Byte.to_N (rand i)) (seq 0 16))).
Proof.
  intro H. unfold resolvedSeed.
  rewrite (randomBytes_eq rand 16) by lia. cbn [Nat.sub repeat bind].
  rewrite app_nil_r. destruct H as [-> | ->]; reflexivity.
Qed.

Lemma resolvedSeed_nonempty (rand : nat -> Byte.byte) (overrides : PhoneticOptions)
    (s : string) :
  resolvedSeed rand overrides = Ret s -> s <> "".
Proof.
  intro H.
  assert (Hrandom : forall t,
             Ret (Buffer.toString_base64
                    (map (fun i => Byte.to_N (rand i)) (seq 0 16))) = Ret t ->
             t <> "").
  { intros t E.
    remember (Buffer.toString_base64
                (map (fun i => Byte.to_N (rand i)) (seq 0 16))) as b eqn:Hb.
    injection E as <-.
    assert (L : String.length b = 24%nat).
    { subst b. apply toString_base64_sixteen.
      rewrite length_map, length_seq. reflexivity. }
    intros ->. discriminate L. }
  destruct (seed overrides) as [s' |] eqn:Es.
  - destruct (String.eqb_spec s' "") as [-> | Hne].
    + rewrite resolvedSeed_random in H by auto. auto.
    + unfold resolvedSeed in H. rewrite Es in H.
      destruct (String.eqb_spec s' ""); [contradiction |].
      injection H as <-. exact Hne.
  - rewrite resolvedSeed_random in H by auto. auto.
Qed.

Lemma resolvedSimplicity_idem (v : option Z) :
  resolvedSimplicity (Some (resolvedSimplicity v)) = resolvedSimplicity v.
Proof.
  pose proof (resolvedSimplicity_pos v) as H.
  unfold resolvedSimplicity at 1.
  destruct (Z.eqb_spec (resolvedSimplicity v) 0); lia.
Qed.

(** X7.  The options that [getOptions] returns are resolved: every field is
    present, the seed is not empty, the number of syllables is not zero,
    both simplicities are at least 1, and [capFirst] is the value given
    ([undefined] when the caller passed an own [capFirst: undefined]) or
    [true] when the property is absent; resolving them again returns them
    as they are and draws no random seed. *)
Theorem getOptions_resolved (rand rand' : nat -> Byte.byte)
    (overrides : PhoneticOptions) :
  returns (getOptions rand overrides)
    (fun options =>
       (exists n s p c b,
           options = mkOptions (Some n) (Some s) (Some p) (Some c) (Some b)
           /\ n <> 0 /\ s <> "" /\ 1 <= p /\ 1 <= c
           /\ b = match capFirst overrides with
                  | Some v => v
                  | None => Boolean true
                  end)
       /\ getOptions rand' options = Ret options).
Proof.
  rewrite getOptions_eq.
  destruct (resolvedSeed_returns rand overrides) as (s & E). rewrite E.
  cbn [bind returns].
  pose proof (resolvedSeed_nonempty _ _ _ E) as Hs.
  assert (Hn : or_number (syllables overrides) 3 <> 0).
  { unfold or_number. destruct (syllables overrides) as [v |]; [| discriminate].
    destruct (Z.eqb_spec v 0); [discriminate | assumption]. }
  split.
  - do 5 eexists. split; [reflexivity |].
    repeat split; auto using resolvedSimplicity_pos.
  - rewrite getOptions_eq, resolvedSeed_explicit by exact Hs.
    cbn [bind syllables phoneticSimplicity compoundSimplicity capFirst nullish].
    rewrite or_number_idem by discriminate.
    rewrite !resolvedSimplicity_idem. reflexivity.
Qed.

(** X8.  When the seed is absent or is the empty string, the resolved seed
    is the base64 text of the sixteen bytes drawn: 24 characters, the last
    two of them "=". *)
Theorem getOptions_random_seed (rand : nat -> Byte.byte)
    (overrides : PhoneticOptions) :
  seed overrides = None \/ seed overrides = Some "" ->
  returns (getOptions rand overrides)
    (fun options =>
       exists s,
         seed options = Some s
         /\ s = Buffer.toString_base64
                  (map (fun i => Byte.to_N (rand i)) (seq 0 16))
         /\ String.length s = 24%nat
         /\ substring 22 2 s = "==").
Proof.
  intro H. rewrite getOptions_eq, resolvedSeed_random by exact H.
  cbn [bind returns seed]. eexists. split; [reflexivity |].
  split; [reflexivity |].
  apply toString_base64_sixteen. rewrite length_map, length_seq. reflexivity.
Qed.

Lemma getOptions_random_seed_witness :
  (seed (mkOptions None (Some "") None None None) = None
   \/ seed (mkOptions None (Some "") None None None) = Some "")
  /\ returns
       (getOptions (fun _ => Byte.x00) (mkOptions None (Some "") None None None))
       (fun options =>
          exists s,
            seed options = Some s
            /\ s = Buffer.toString_base64
                     (map (fun i => Byte.to_N ((fun _ => Byte.x00) i)) (seq 0 16))
            /\ String.length s = 24%nat
            /\ substring 22 2 s = "==").
Proof.
  split; [right; reflexivity |].
  apply (getOptions_random_seed (fun _ => Byte.x00)
           (mkOptions None (Some "") None None None)).
  right. reflexivity.
Defined.

(** ** capFirst *)

Lemma toUpperCase_idem (c : ascii) : toUpperCase (toUpperCase c) = toUpperCase c.
Proof. destruct c as [[] [] [] [] [] [] [] []]; reflexivity. Qed.

Lemma toUpperCase_ascii (c : ascii) :
  (N_of_ascii c <? 128)%N = true -> (N_of_ascii (toUpperCase c) <? 128)%N = true.
Proof. destruct c as [[] [] [] [] [] [] [] []]; intro H; solve [reflexivity | discriminate H]. Qed.

Lemma capFirst_length (str : string) :
  String.length (capFirst_ str) = String.length str.
Proof. destruct str; reflexivity. Qed.

(** X9.  On an ASCII text [capFirst] turns a first character a to z into
    A to Z and keeps every other character; the result is an ASCII text of
    the same length, is empty for the empty text only, and [capFirst]
    applied twice gives what it gives applied once. *)
Theorem capFirst_length_idempotent (str : string) :
  asciiText str = true ->
  capFirst_ str
  = match str with
    | EmptyString => ""
    | String c rest =>
        String
          (if (97 <=? N_of_ascii c)%N && (N_of_ascii c <=? 122)%N
           then ascii_of_N (N_of_ascii c - 32)
           else c)
          rest
    end
  /\ asciiText (capFirst_ str) = true
  /\ String.length (capFirst_ str) = String.length str
  /\ capFirst_ (capFirst_ str) = capFirst_ str
  /\ (capFirst_ str = "" <-> str = "").
Proof.
  intro H. split; [destruct str; reflexivity |].
  split; [| split; [apply capFirst_length |]].
  - destruct str as [| c rest]; [reflexivity |].
    cbn [capFirst_ asciiText] in *.
    apply andb_true_iff in H. destruct H as [Hc Hr].
    rewrite (toUpperCase_ascii c Hc), Hr. reflexivity.
  - destruct str as [| c rest]; cbn [capFirst_].
    + split; [reflexivity | tauto].
    + rewrite toUpperCase_idem. split; [reflexivity |]. split; discriminate.
Qed.

Lemma capFirst_length_idempotent_witness :
  asciiText "pepitie" = true
  /\ capFirst_ "pepitie" = "Pepitie"
  /\ asciiText (capFirst_ "pepitie") = true
  /\ String.length (capFirst_ "pepitie") = String.length "pepitie"
  /\ capFirst_ (capFirst_ "pepitie") = capFirst_ "pepitie"
  /\ (capFirst_ "pepitie" = "" <-> "pepitie" = "").
Proof.
  split; [reflexivity |].
  apply (capFirst_length_idempotent "pepitie"). reflexivity.
Defined.

(** ** The shape of a syllable *)

Ltac split_all := repeat match goal with |- _ /\ _ => split end.

Lemma drawn_in (phoneticSet : list string) (simpleCap : Z)
    (w : PhoneticWordObject) (forceSimple : bool) :
  In (phoneticSet, simpleCap) syllableTables ->
  exists s,
    subscript phoneticSet (phoneticIndex phoneticSet simpleCap w forceSimple) = Some s
    /\ In s phoneticSet.
Proof.
  intro H.
  destruct (phoneticIndex_bounds _ _ w forceSimple H) as (i & -> & Hi).
  apply subscript_in_bounds, Hi.
Qed.

Lemma drawn_simple_vowel (w : PhoneticWordObject) :
  exists s,
    subscript PHONETIC_MID
      (phoneticIndex PHONETIC_MID PHONETIC_MID_SIMPLE_LENGTH w true) = Some s
    /\ In s (firstn 5 PHONETIC_MID).
Proof.
  unfold phoneticIndex, phoneticCap. rewrite orb_true_r.
  unfold PHONETIC_MID_SIMPLE_LENGTH, js_rem. cbn [Z.eqb].
  pose proof (Z.rem_bound_pos (Z.of_N (numeric w)) 5 ltac:(lia) ltac:(lia)) as H.
  set (r := Z.rem (Z.of_N (numeric w)) 5) in *. clearbody r.
  unfold subscript. destruct (Z.ltb_spec r 0); [lia |].
  assert (Hr : (Z.to_nat r < 5)%nat) by lia.
  destruct (Z.to_nat r) as [| [| [| [| [| n]]]]]; [| | | | | lia];
    (eexists; split; [reflexivity | simpl; tauto]).
Qed.

(** All the cases of a syllable at once. *)
Lemma addSyllable_cases (w : PhoneticWordObject) :
  returns (addSyllable w)
    (fun w' =>
       exists pre mid post,
         word w' = word w ++ pre ++ mid ++ post
         /\ opts w' = opts w
         /\ In mid PHONETIC_MID
         /\ (lastSkippedPre w' = false /\ In pre PHONETIC_PRE
             \/ lastSkippedPre w' = true /\ pre = ""
                /\ lastSkippedPost w = false /\ lastSkippedPost w' = false
                /\ ((word w =? "")%string = true -> In mid (firstn 5 PHONETIC_MID)))
         /\ (lastSkippedPost w' = false /\ In post PHONETIC_POST
             \/ lastSkippedPost w' = true /\ post = "")
         /\ (compoundSimplicity (opts w) = Some 1 ->
             lastSkippedPre w' = false /\ lastSkippedPost w' = false)).
Proof.
  unfold addSyllable.
  set (compound := is_zero _). set (first := (word w =? "")%string).
  set (preOnFirst := is_positive _).
  assert (Hcompound : compoundSimplicity (opts w) = Some 1 -> compound = true).
  { intro E. unfold compound. rewrite E. cbn [nullish]. unfold js_rem.
    cbn [Z.eqb]. rewrite Z.rem_1_r. reflexivity. }
  destruct (first && preOnFirst || lastSkippedPost w || compound) eqn:C1.
  - (* a phonetic from PRE *)
    rewrite appendNextPhonetic_eq. cbn [bind].
    destruct (drawn_in PHONETIC_PRE PHONETIC_PRE_SIMPLE_LENGTH w false)
      as (pre & -> & Hpre); [simpl; tauto |].
    rewrite appendNextPhonetic_eq. cbn [bind].
    cbn [set_lastSkippedPre lastSkippedPre lastSkippedPost word opts numeric
         text_of andb orb].
    match goal with
    | |- context [subscript PHONETIC_MID ?i] =>
        destruct (drawn_in PHONETIC_MID PHONETIC_MID_SIMPLE_LENGTH
                    (set_lastSkippedPre false
                       (mkWordObj (numericHash (hashedText w)) (lastSkippedPre w)
                          (lastSkippedPost w) (word w ++ pre) (opts w)))
                    (first && false))
          as (mid & Emid & Hmid); [simpl; tauto |]
    end.
    cbn [set_lastSkippedPre lastSkippedPre lastSkippedPost word opts numeric]
      in Emid.
    rewrite Emid. cbn [text_of].
    destruct compound eqn:C2.
    + rewrite appendNextPhonetic_eq. cbn [returns].
      match goal with
      | |- context [subscript PHONETIC_POST (phoneticIndex _ _ ?w2 false)] =>
          destruct (drawn_in PHONETIC_POST PHONETIC_POST_SIMPLE_LENGTH w2 false)
            as (post & -> & Hpost); [simpl; tauto |]
      end.
      exists pre, mid, post.
      cbn [set_lastSkippedPost lastSkippedPre lastSkippedPost word opts text_of].
      rewrite !append_assoc. split_all; auto.
    + cbn [returns]. exists pre, mid, "".
      cbn [set_lastSkippedPost lastSkippedPre lastSkippedPost word opts].
      rewrite !append_assoc, append_nil_r. split_all; auto.
      intro E. apply Hcompound in E. discriminate E.
  - (* no phonetic from PRE *)
    apply orb_false_iff in C1. destruct C1 as [C1 C2].
    apply orb_false_iff in C1. destruct C1 as [C0 C1].
    cbn [bind]. rewrite appendNextPhonetic_eq. cbn [bind].
    cbn [set_lastSkippedPre lastSkippedPre lastSkippedPost word opts numeric
         text_of andb orb].
    rewrite andb_true_r.
    assert (Hmid : exists mid,
               subscript PHONETIC_MID
                 (phoneticIndex PHONETIC_MID PHONETIC_MID_SIMPLE_LENGTH
                    (set_lastSkippedPre true w) first) = Some mid
               /\ In mid PHONETIC_MID
               /\ (first = true -> In mid (firstn 5 PHONETIC_MID))).
    { destruct first.
      - destruct (drawn_simple_vowel (set_lastSkippedPre true w))
          as (mid & E & H5).
        exists mid. split_all; auto.
        simpl in H5. simpl. tauto.
      - destruct (drawn_in PHONETIC_MID PHONETIC_MID_SIMPLE_LENGTH
                    (set_lastSkippedPre true w) false)
          as (mid & E & Hin); [simpl; tauto |].
        exists mid. split_all; auto. discriminate. }
    destruct Hmid as (mid & -> & Hmid & Hforced). cbn [text_of].
    rewrite appendNextPhonetic_eq. cbn [returns].
    match goal with
    | |- context [subscript PHONETIC_POST (phoneticIndex _ _ ?w2 false)] =>
        destruct (drawn_in PHONETIC_POST PHONETIC_POST_SIMPLE_LENGTH w2 false)
          as (post & -> & Hpost); [simpl; tauto |]
    end.
    exists "", mid, post.
    cbn [set_lastSkippedPost lastSkippedPre lastSkippedPost word opts text_of
         append].
    rewrite !append_assoc. split_all; auto.
    + right. split_all; auto.
    + intro E. apply Hcompound in E. congruence.
Qed.

(** X10.  [addSyllable] returns, leaves the options alone, and appends to
    the word at most one phonetic of PHONETIC_PRE, then exactly one of
    PHONETIC_MID, then at most one of PHONETIC_POST; [lastSkippedPre] and
    [lastSkippedPost] say which of the two optional phonetics were left
    out. *)
Theorem addSyllable_shape (wordObj : PhoneticWordObject) :
  returns (addSyllable wordObj)
    (fun w' =>
       exists pre mid post,
         word w' = word wordObj ++ pre ++ mid ++ post
         /\ (if lastSkippedPre w' then pre = "" else In pre PHONETIC_PRE)
         /\ In mid PHONETIC_MID
         /\ (if lastSkippedPost w' then post = "" else In post PHONETIC_POST)
         /\ opts w' = opts wordObj).
Proof.
  eapply returns_weaken; [apply addSyllable_cases |].
  intros w' (pre & mid & post & Hw & Ho & Hmid & Hpre & Hpost & _).
  exists pre, mid, post. split_all; auto.
  - destruct Hpre as [[-> H] | (-> & H & _)]; exact H.
  - destruct Hpost as [[-> H] | [-> H]]; exact H.
Qed.

(** X11.  No syllable leaves out both its PRE and its POST phonetic, and a
    syllable that follows one without a POST phonetic has a PRE phonetic. *)
Theorem addSyllable_never_skips_both (wordObj : PhoneticWordObject) :
  returns (addSyllable wordObj)
    (fun w' =>
       lastSkippedPre w' && lastSkippedPost w' = false
       /\ lastSkippedPost wordObj && lastSkippedPre w' = false).
Proof.
  eapply returns_weaken; [apply addSyllable_cases |].
  intros w' (pre & mid & post & _ & _ & _ & Hpre & _).
  destruct Hpre as [[-> _] | (-> & _ & -> & -> & _)]; split;
    auto using andb_false_r.
Qed.

(** X12.  On an empty word, the syllable starts with a phonetic of
    PHONETIC_PRE or, when it has none, is one of the five simple vowels
    followed by a phonetic of PHONETIC_POST: the first syllable never
    starts with a complex vowel phonetic. *)
Theorem addSyllable_first_syllable (wordObj : PhoneticWordObject) :
  word wordObj = "" ->
  returns (addSyllable wordObj)
    (fun w' =>
       (exists pre rest,
           lastSkippedPre w' = false /\ In pre PHONETIC_PRE
           /\ word w' = pre ++ rest)
       \/ (exists mid post,
              lastSkippedPre w' = true
              /\ In mid ["a"; "e"; "i"; "o"; "u"] /\ In post PHONETIC_POST
              /\ word w' = mid ++ post)).
Proof.
  intro Hempty.
  eapply returns_weaken; [apply addSyllable_cases |].
  intros w' (pre & mid & post & Hw & _ & _ & Hpre & Hpost & _).
  rewrite Hempty in Hw. cbn [append] in Hw.
  destruct Hpre as [[E Hin] | (E & -> & _ & E' & Hforced)].
  - left. exists pre, (mid ++ post). auto.
  - right. exists mid, post. cbn [append] in Hw.
    destruct Hpost as [[_ Hin] | [E'' _]]; [| congruence].
    split_all; auto. apply Hforced. rewrite Hempty. reflexivity.
Qed.

Lemma addSyllable_first_syllable_witness :
  word (mkWordObj 6541926843 false false ""
          (mkOptions None (Some "a") None None None)) = ""
  /\ returns
       (addSyllable (mkWordObj 6541926843 false false ""
                       (mkOptions None (Some "a") None None None)))
       (fun w' =>
          (exists pre rest,
              lastSkippedPre w' = false /\ In pre PHONETIC_PRE
              /\ word w' = pre ++ rest)
          \/ (exists mid post,
                 lastSkippedPre w' = true
                 /\ In mid ["a"; "e"; "i"; "o"; "u"] /\ In post PHONETIC_POST
                 /\ word w' = mid ++ post)).
Proof.
  split; [reflexivity |].
  apply (addSyllable_first_syllable
           (mkWordObj 6541926843 false false ""
              (mkOptions None (Some "a") None None None))).
  reflexivity.
Defined.

(** X13.  With a [compoundSimplicity] of 1 every syllable is compound: it
    has a phonetic of each of the three tables. *)
Theorem addSyllable_compound_one (wordObj : PhoneticWordObject) :
  compoundSimplicity (opts wordObj) = Some 1 ->
  returns (addSyllable wordObj)
    (fun w' =>
       exists pre mid post,
         In pre PHONETIC_PRE /\ In mid PHONETIC_MID /\ In post PHONETIC_POST
         /\ word w' = word wordObj ++ pre ++ mid ++ post
         /\ lastSkippedPre w' = false /\ lastSkippedPost w' = false).
Proof.
  intro Hone.
  eapply returns_weaken; [apply addSyllable_cases |].
  intros w' (pre & mid & post & Hw & _ & Hmid & Hpre & Hpost & Hboth).
  destruct (Hboth Hone) as [E1 E2].
  exists pre, mid, post.
  destruct Hpre as [[_ Hin1] | (E & _)]; [| congruence].
  destruct Hpost as [[_ Hin2] | [E _]]; [| congruence].
  split_all; auto.
Qed.

Lemma addSyllable_compound_one_witness :
  compoundSimplicity
    (opts (mkWordObj 6541926843 false false ""
             (mkOptions (Some 3) (Some "a") (Some 5) (Some 1) (Some (Boolean true)))))
  = Some 1
  /\ returns
       (addSyllable
          (mkWordObj 6541926843 false false ""
             (mkOptions (Some 3) (Some "a") (Some 5) (Some 1) (Some (Boolean true)))))
       (fun w' =>
          exists pre mid post,
            In pre PHONETIC_PRE /\ In mid PHONETIC_MID /\ In post PHONETIC_POST
            /\ word w'
               = word (mkWordObj 6541926843 false false ""
                         (mkOptions (Some 3) (Some "a") (Some 5) (Some 1)
                            (Some (Boolean true))))
                 ++ pre ++ mid ++ post
            /\ lastSkippedPre w' = false /\ lastSkippedPost w' = false).
Proof.
  split; [reflexivity |].
  apply (addSyllable_compound_one
           (mkWordObj 6541926843 false false ""
              (mkOptions (Some 3) (Some "a") (Some 5) (Some 1) (Some (Boolean true))))).
  reflexivity.
Defined.

(** ** The length of the raw word *)








(** ** What [generate] returns *)

Lemma addSyllable_keeps_nonempty (w : PhoneticWordObject) :
  word w <> "" -> returns (addSyllable w) (fun w' => word w' <> "").
Proof. intros _. apply addSyllable_nonempty. Qed.

Lemma syllableLoop_nonzero (fuel : nat) (syllables : Z) (w : PhoneticWordObject) :
  syllables <> 0 ->
  syllableLoop fuel syllables w = OutOfFuel
  \/ returns (syllableLoop fuel syllables w) (fun w' => word w' <> "").
Proof.
  intro H. destruct fuel as [| fuel]; [left; reflexivity |].
  cbn [syllableLoop]. destruct (Z.eqb_spec syllables 0); [contradiction |].
  destruct (returns_inv _ _ (addSyllable_nonempty w)) as (w1 & -> & Hw1).
  cbn [bind].
  apply (syllableLoop_invariant (fun w' => word w' <> "")
           addSyllable_keeps_nonempty); exact Hw1.
Qed.

Lemma or_number_nonzero (a : option Z) (b : Z) : b <> 0 -> or_number a b <> 0.
Proof.
  intro Hb. unfold or_number. destruct a as [v |]; [| exact Hb].
  destruct (Z.eqb_spec v 0); assumption.
Qed.

(** X15.  For options whose seed is absent or an ASCII text, whatever the
    other options, the entropy and the fuel, [generate] throws no
    exception, and a word it returns is not the empty string: the resolved
    number of syllables is never zero.  (The seed is the one text of the
    caller that is hashed; the MD5 of a text that is not well-formed
    UTF-16 is outside the model.) *)
Theorem generate_never_throws (fuel : nat) (rand : nat -> Byte.byte)
    (options : PhoneticOptions) :
  asciiText (nullish (seed options) "") = true ->
  generate fuel rand options = OutOfFuel
  \/ returns (generate fuel rand options) (fun out => out <> "").
Proof.
  intros _. unfold generate. rewrite rawWordObj_eq.
  destruct (resolvedSeed_returns rand options) as (s & ->). cbn [bind].
  destruct (syllableLoop_nonzero fuel (or_number (syllables options) 3)
              (startWordObj (resolvedOptions options s)))
    as [-> | H]; [apply or_number_nonzero; discriminate | left; reflexivity |].
  right. apply returns_bind.
  eapply returns_weaken; [exact H |].
  intros w Hw. apply postProcess_nonempty, Hw.
Qed.

Lemma generate_never_throws_witness :
  asciiText (nullish (seed (mkOptions (Some 0) (Some "a") (Some (-3)) None None)) "")
  = true
  /\ (generate 4 (fun _ => Byte.x00)
        (mkOptions (Some 0) (Some "a") (Some (-3)) None None) = OutOfFuel
      \/ returns
           (generate 4 (fun _ => Byte.x00)
              (mkOptions (Some 0) (Some "a") (Some (-3)) None None))
           (fun out => out <> "")).
Proof.
  split; [reflexivity |].
  apply (generate_never_throws 4 (fun _ => Byte.x00)
           (mkOptions (Some 0) (Some "a") (Some (-3)) None None)).
  reflexivity.
Defined.



(** X17.  When [syllables] is negative, [generate] does not return,
    whatever the other options and the fuel: the counter is not clamped, and
    a negative counter never reaches zero. *)
Theorem generate_negative_diverges (fuel : nat) (rand : nat -> Byte.byte)
    (v : Z) (se : option string) (ps cs : option Z) (cf : option boolOrUndefined) :
  v < 0 ->
  generate fuel rand (mkOptions (Some v) se ps cs cf) = OutOfFuel.
Proof.
  intro Hv. unfold generate. rewrite rawWordObj_negative; [reflexivity |].
  cbn [syllables or_number]. destruct (Z.eqb_spec v 0); lia.
Qed.

Lemma generate_negative_diverges_witness :
  -7 < 0
  /\ generate 100 (fun _ => Byte.x00)
       (mkOptions (Some (-7)) None (Some 2) None (Some (Boolean false))) = OutOfFuel.
Proof.
  split; [lia |].
  apply (generate_negative_diverges 100 (fun _ => Byte.x00) (-7) None (Some 2)
           None (Some (Boolean false))).
  lia.
Defined.

(** ** One more syllable *)

Lemma times_succ_r {A : Type} (n : nat) (f : A -> outcome A) :
  forall a, times (S n) f a = (a' <- times n f a ;; f a').
Proof.
  induction n as [| n IH]; intro a.
  - cbn [times bind]. destruct (f a); reflexivity.
  - cbn [times]. destruct (f a) as [a1 | |]; cbn [bind]; auto.
    specialize (IH a1). cbn [times] in IH. exact IH.
Qed.

(** X18.  For a seed that is not empty and a positive [n], asking for
    [n + 1] syllables instead of [n] keeps the word handed to [postProcess]
    and appends one more syllable to it. *)
Theorem one_more_syllable (fuel : nat) (rand1 rand2 : nat -> Byte.byte)
    (n : Z) (s : string) (ps cs : option Z) (cf : option boolOrUndefined) :
  s <> "" -> 0 < n -> n + 1 < Z.of_nat fuel ->
  exists w1 w2 suffix,
    rawWordObj fuel rand1 (mkOptions (Some n) (Some s) ps cs cf) = Ret w1
    /\ rawWordObj fuel rand2 (mkOptions (Some (n + 1)) (Some s) ps cs cf) = Ret w2
    /\ word w2 = word w1 ++ suffix
    /\ suffix <> "".
Proof.
  intros Hs Hn Hfuel.
  rewrite !rawWordObj_eq, !resolvedSeed_explicit by exact Hs. cbn [bind syllables].
  assert (E1 : or_number (Some n) 3 = n).
  { unfold or_number. destruct (Z.eqb_spec n 0); [lia | reflexivity]. }
  assert (E2 : or_number (Some (n + 1)) 3 = n + 1).
  { unfold or_number. destruct (Z.eqb_spec (n + 1) 0); [lia | reflexivity]. }
  rewrite E1, E2.
  set (o1 := resolvedOptions (mkOptions (Some n) (Some s) ps cs cf) s).
  set (o2 := resolvedOptions (mkOptions (Some (n + 1)) (Some s) ps cs cf) s).
  change (startWordObj o2) with (withOptions o2 (startWordObj o1)).
  rewrite syllableLoop_withOptions by reflexivity.
  rewrite !syllableLoop_times by lia.
  replace (Z.to_nat (n + 1)) with (S (Z.to_nat n)) by lia.
  rewrite times_succ_r.
  assert (Hrun : returns (times (Z.to_nat n) addSyllable (startWordObj o1))
                   (fun _ => True)).
  { apply times_invariant; auto.
    intros w _. destruct (addSyllable_returns w) as (w' & ->). exact I. }
  destruct (returns_inv _ _ Hrun) as (w1 & -> & _). cbn [bind].
  destruct (returns_inv _ _ (addSyllable_cases w1))
    as (w2 & -> & pre & mid & post & Hw & _ & Hmid & _).
  cbn [bind].
  exists w1, (withOptions o2 w2), (pre ++ mid ++ post).
  split_all; auto.
  apply append_nonempty_r, append_nonempty_l, PHONETIC_MID_nonempty, Hmid.
Qed.

Lemma one_more_syllable_witness :
  "a" <> "" /\ 0 < 2 /\ 2 + 1 < Z.of_nat 5
  /\ exists w1 w2 suffix,
       rawWordObj 5 (fun _ => Byte.x00) (mkOptions (Some 2) (Some "a") None None None)
       = Ret w1
       /\ rawWordObj 5 (fun _ => Byte.x01)
            (mkOptions (Some (2 + 1)) (Some "a") None None None) = Ret w2
       /\ word w2 = word w1 ++ suffix
       /\ suffix <> "".
Proof.
  split; [discriminate |]. split; [lia |]. split; [simpl; lia |].
  apply (one_more_syllable 5 (fun _ => Byte.x00) (fun _ => Byte.x01) 2 "a"
           None None None); [discriminate | lia | simpl; lia].
Defined.

(** ** The letters of the word *)

Lemma returns_and {A : Type} (m : outcome A) (P Q : A -> Prop) :
  returns m P -> returns m Q -> returns m (fun a => P a /\ Q a).
Proof. destruct m; simpl; auto. Qed.

Lemma lowercase_append (s1 s2 : string) :
  lowercase (s1 ++ s2) = lowercase s1 && lowercase s2.
Proof.
  induction s1 as [| c s1 IH]; simpl; [reflexivity |].
  rewrite IH. apply andb_assoc.
Qed.

Lemma lowercase_substring (s : string) :
  lowercase s = true -> forall n m, lowercase (substring n m s) = true.
Proof.
  induction s as [| c s IH]; intros H n m.
  - destruct n, m; reflexivity.
  - simpl in H. apply andb_true_iff in H. destruct H as [Hc Hs].
    destruct n as [| n]; destruct m as [| m]; simpl; auto.
    rewrite Hc. simpl. auto.
Qed.

Lemma lowercase_fragments (fragments : list string) :
  Forall isFragment fragments ->
  lowercase (fold_right append "" fragments) = true.
Proof.
  assert (Htable : forall s, isFragment s -> lowercase s = true).
  { intros s [H | [H | H]];
      [ assert (T : forallb lowercase PHONETIC_PRE = true) by reflexivity
      | assert (T : forallb lowercase PHONETIC_MID = true) by reflexivity
      | assert (T : forallb lowercase PHONETIC_POST = true) by reflexivity ];
      rewrite forallb_forall in T; apply T, H. }
  induction 1 as [| f fragments Hf _ IH]; [reflexivity |].
  cbn [fold_right]. rewrite lowercase_append, (Htable _ Hf), IH. reflexivity.
Qed.

Lemma fragmentWord_lowercase (w : string) : fragmentWord w -> lowercase w = true.
Proof. intros (fragments & H & ->). apply lowercase_fragments, H. Qed.

(** The captures of a match are cut out of the input. *)
Lemma rmatch_captures (r : regex) :
  forall (X : Type) input pos cs (k : nat -> captures -> option X) x,
    Forall (fun c => cutFrom input (snd c)) cs ->
    rmatch X r input pos cs k = Some x ->
    exists p c, Forall (fun c => cutFrom input (snd c)) c /\ k p c = Some x.
Proof.
  induction r as [| c | set | | | | r IH | r1 IH1 r2 IH2 | r1 IH1 r2 IH2
                 | n r IH | n r IH];
    intros X input pos cs k x Hcs H; cbn [rmatch] in H.
  - eauto.
  - destruct (get pos input) as [d |]; [| discriminate H].
    destruct (Ascii.eqb c d); [eauto | discriminate H].
  - destruct (get pos input) as [d |]; [| discriminate H].
    destruct (mem d set); [eauto | discriminate H].
  - destruct (get pos input) as [d |]; [| discriminate H].
    destruct (line_end d); [discriminate H | eauto].
  - destruct (Nat.eqb pos 0); [eauto | discriminate H].
  - destruct (Nat.eqb pos (String.length input)); [eauto | discriminate H].
  - destruct (rmatch unit r input pos cs _); [discriminate H | eauto].
  - apply IH1 in H; [| exact Hcs]. destruct H as (p1 & c1 & Hc1 & H).
    apply IH2 in H; [| exact Hc1]. exact H.
  - destruct (rmatch X r1 input pos cs k) as [y |] eqn:E.
    + injection H as ->. eapply IH1; eauto.
    + eapply IH2; eauto.
  - apply IH in H; [| exact Hcs]. destruct H as (p & c & Hc & H).
    exists p, ((n, substring pos (p - pos) input) :: c). split; [| exact H].
    constructor; [| exact Hc]. cbn [snd]. unfold cutFrom. eauto.
  - revert pos cs Hcs H. induction n as [| n IHn]; intros pos cs Hcs H.
    + eauto.
    + apply IH in H; [| exact Hcs]. destruct H as (p & c & Hc & H).
      apply IHn in H; [| exact Hc]. exact H.
Qed.

Lemma capture_lowercase (input : string) (cs : captures) (n : nat) :
  lowercase input = true ->
  Forall (fun c => cutFrom input (snd c)) cs ->
  lowercase (capture n cs) = true.
Proof.
  intros Hin H. induction H as [| [m s] cs (a & b & Hs) _ IH]; [reflexivity |].
  cbn [capture]. destruct (Nat.eqb n m); [| exact IH].
  cbn [snd] in Hs. rewrite Hs. apply lowercase_substring, Hin.
Qed.

Lemma replace_lowercase (r : regex) (template input : string) :
  (forall cs, (forall n, lowercase (capture n cs) = true) ->
              lowercase (expand template cs) = true) ->
  lowercase input = true ->
  lowercase (replace r template input) = true.
Proof.
  intros Ht Hin. unfold replace, exec.
  pose proof (search_leftmost r input (String.length input) 0) as H.
  destruct (search (String.length input) r input 0) as [[[s e] cs] |];
    [| exact Hin].
  destruct H as (_ & Hm & _). unfold match_at in Hm.
  apply rmatch_captures in Hm; [| constructor].
  destruct Hm as (p & c & Hc & E). injection E as <- <-.
  rewrite !lowercase_append. unfold from.
  rewrite !lowercase_substring by exact Hin.
  rewrite Ht; [reflexivity |].
  intro n. apply (capture_lowercase input); assumption.
Qed.

Lemma compiledReplacements_lowercase :
  Forall (fun entry =>
            forall cs, (forall n, lowercase (capture n cs) = true) ->
                       lowercase (expand (snd entry) cs) = true)
    compiledReplacements.
Proof.
  unfold compiledReplacements.
  repeat constructor; intros cs Hcs; cbn; try reflexivity;
    rewrite ?lowercase_append, ?Hcs; reflexivity.
Qed.

Lemma applyReplacements_lowercase (table : list (regex * string)) :
  Forall (fun entry =>
            forall cs, (forall n, lowercase (capture n cs) = true) ->
                       lowercase (expand (snd entry) cs) = true) table ->
  forall s, lowercase s = true -> lowercase (applyReplacements table s) = true.
Proof.
  induction 1 as [| entry table He _ IH]; intros s Hs; [exact Hs |].
  cbn [applyReplacements fold_left]. apply IH, replace_lowercase; auto.
Qed.

(** The word object at the end of the loop. *)
Lemma rawWordObj_final (fuel : nat) (rand : nat -> Byte.byte)
    (options : PhoneticOptions) :
  rawWordObj fuel rand options = OutOfFuel
  \/ returns (rawWordObj fuel rand options)
       (fun w =>
          (fragmentWord (word w) /\ word w <> "")
          /\ capFirst (opts w) = Some (nullish (capFirst options) (Boolean true))).
Proof.
  rewrite rawWordObj_eq.
  destruct (resolvedSeed_returns rand options) as (s & ->). cbn [bind].
  set (start := startWordObj (resolvedOptions options s)).
  set (I := fun w : PhoneticWordObject =>
              (fragmentWord (word w) /\ word w <> "")
              /\ capFirst (opts w) = Some (nullish (capFirst options) (Boolean true))).
  assert (Hstep : forall w,
             fragmentWord (word w) ->
             capFirst (opts w) = Some (nullish (capFirst options) (Boolean true)) ->
             returns (addSyllable w) I).
  { intros w Hf Ho. apply returns_and; [apply returns_and |].
    - apply addSyllable_fragments, Hf.
    - apply addSyllable_nonempty.
    - eapply returns_weaken; [apply (addSyllable_opts (opts w)); reflexivity |].
      cbv beta. intros w' ->. exact Ho. }
  destruct fuel as [| fuel]; [left; reflexivity |].
  cbn [syllableLoop].
  destruct (Z.eqb_spec (or_number (syllables options) 3) 0) as [E | _].
  { exfalso. revert E. apply or_number_nonzero. discriminate. }
  destruct (returns_inv _ _ (Hstep start fragmentWord_empty eq_refl))
    as (w1 & -> & Hw1).
  cbn [bind]. apply (syllableLoop_invariant I); [| exact Hw1].
  intros w [[Hf _] Ho]. apply Hstep; assumption.
Qed.

(** ** postProcess on the words of the program *)

Lemma lower_ascii (c : ascii) : lower c = true -> (N_of_ascii c <? 128)%N = true.
Proof.
  unfold lower. cbv zeta. intro H.
  apply andb_true_iff in H. destruct H as [_ H].
  apply N.leb_le in H. apply N.ltb_lt. lia.
Qed.

Lemma lowercase_asciiText (s : string) : lowercase s = true -> asciiText s = true.
Proof.
  induction s as [| c s IH]; [reflexivity |].
  cbn [lowercase asciiText]. intro H.
  apply andb_true_iff in H. destruct H as [Hc Hs].
  rewrite (lower_ascii c Hc), (IH Hs). reflexivity.
Qed.

Lemma toUpperCase_lower (c : ascii) :
  lower c = true -> toUpperCase c = ascii_of_N (N_of_ascii c - 32).
Proof. unfold lower, toUpperCase. cbv zeta. intros ->. reflexivity. Qed.

Lemma rawWordObj_asciiText (fuel : nat) (rand : nat -> Byte.byte)
    (options : PhoneticOptions) (w : PhoneticWordObject) :
  rawWordObj fuel rand options = Ret w -> asciiText (word w) = true.
Proof.
  intro E. destruct (rawWordObj_final fuel rand options) as [H | H].
  - rewrite E in H. discriminate H.
  - rewrite E in H. cbn [returns] in H. destruct H as [[Hf _] _].
    apply lowercase_asciiText, fragmentWord_lowercase, Hf.
Qed.

(** C6.  [REPLACEMENTS] holds the eight pairs in the order of the source;
    each key compiles; on an ASCII word [postProcess] returns the one text
    obtained from the word by the eight replacements in that order, each
    replacing the leftmost match of its pattern only, and afterwards, when
    [capFirst] is true and only then, the first character of that text is
    turned to upper case (a to z become A to Z, any other first character
    and the rest of the text are kept).  Every word that [generate] hands
    to [postProcess] is an ASCII word. *)
Theorem postProcess_spec :
  REPLACEMENTS
  = [ ("quu", "que"); ("qu([aeiou]){2}", "qu$1"); ("[iu]y", "ey");
      ("eye", "ye"); ("(.)ye$", "$1y"); ("(^|e)cie(?!$)", "$1cei");
      ("([vz])$", "$1e"); ("[iu]w", "ow") ]
  /\ Forall2 (fun entry compiled =>
                RegExp (fst entry) = Ret (fst compiled)
                /\ snd entry = snd compiled)
       REPLACEMENTS compiledReplacements
  /\ (forall wordObj : PhoneticWordObject,
         asciiText (word wordObj) = true ->
         exists out,
           replacedInOrder compiledReplacements (word wordObj) out
           /\ (forall out',
                  replacedInOrder compiledReplacements (word wordObj) out' ->
                  out' = out)
           /\ postProcess wordObj
              = Ret (match capFirst (opts wordObj) with
                     | Some (Boolean true) =>
                         match out with
                         | EmptyString => ""
                         | String c rest =>
                             String
                               (if (97 <=? N_of_ascii c)%N && (N_of_ascii c <=? 122)%N
                                then ascii_of_N (N_of_ascii c - 32)
                                else c)
                               rest
                         end
                     | _ => out
                     end))
  /\ (forall (fuel : nat) (rand : nat -> Byte.byte) (options : PhoneticOptions)
             (wordObj : PhoneticWordObject),
         rawWordObj fuel rand options = Ret wordObj ->
         asciiText (word wordObj) = true).
Proof.
  split; [reflexivity |]. split; [exact RegExp_REPLACEMENTS |]. split.
  - intros wordObj _.
    exists (applyReplacements compiledReplacements (word wordObj)).
    split; [apply applyReplacements_in_order |]. split.
    + intros out' H. eapply replacedInOrder_unique; [exact H |].
      apply applyReplacements_in_order.
    + rewrite postProcess_eq.
      destruct (capFirst (opts wordObj)) as [[[|] |] |]; reflexivity.
  - exact rawWordObj_asciiText.
Qed.

Lemma postProcess_spec_witness :
  asciiText (word (mkWordObj 0 false false "quuz"
                     (mkOptions None None None None (Some (Boolean true))))) = true
  /\ (exists out,
       replacedInOrder compiledReplacements "quuz" out
       /\ (forall out', replacedInOrder compiledReplacements "quuz" out' -> out' = out)
       /\ postProcess (mkWordObj 0 false false "quuz"
                         (mkOptions None None None None (Some (Boolean true))))
          = Ret (match out with
                 | EmptyString => ""
                 | String c rest =>
                     String
                       (if (97 <=? N_of_ascii c)%N && (N_of_ascii c <=? 122)%N
                        then ascii_of_N (N_of_ascii c - 32)
                        else c)
                       rest
                 end))
  /\ exists wordObj,
       rawWordObj 4 (fun _ => Byte.x00) (mkOptions None (Some "a") None None None)
       = Ret wordObj
       /\ asciiText (word wordObj) = true.
Proof.
  split; [reflexivity |]. split.
  - exact (proj1 (proj2 (proj2 postProcess_spec))
             (mkWordObj 0 false false "quuz"
                (mkOptions None None None None (Some (Boolean true))))
             eq_refl).
  - eexists. split; [vm_compute; reflexivity |].
    apply (proj2 (proj2 (proj2 postProcess_spec)) 4%nat (fun _ => Byte.x00)
             (mkOptions None (Some "a") None None None)).
    vm_compute. reflexivity.
Defined.

(** X19.  A word that [generate] returns is a non-empty text of letters:
    lower-case letters a to z, the first of them turned to upper case
    (its code lowered by 32) when [capFirst] is absent or true, and left
    in lower case when [capFirst] is false or an own [undefined].  The
    tables hold lower-case letters only, and the replacements bring in
    nothing else. *)
Theorem generate_letters (fuel : nat) (rand : nat -> Byte.byte)
    (options : PhoneticOptions) (out : string) :
  generate fuel rand options = Ret out ->
  exists c rest,
    lowercase (String c rest) = true
    /\ out = match capFirst options with
             | Some (Boolean false) | Some Undefined => String c rest
             | Some (Boolean true) | None =>
                 String (ascii_of_N (N_of_ascii c - 32)) rest
             end.
Proof.
  unfold generate. intro E.
  destruct (rawWordObj_final fuel rand options) as [H | H];
    [rewrite H in E; discriminate E |].
  destruct (returns_inv _ _ H) as (w & Ew & [[Hf Hne] Ho]).
  rewrite Ew in E. cbn [bind] in E.
  rewrite postProcess_eq, Ho in E.
  assert (Hlow : lowercase (applyReplacements compiledReplacements (word w)) = true).
  { apply applyReplacements_lowercase;
      [apply compiledReplacements_lowercase | apply fragmentWord_lowercase, Hf]. }
  assert (Hnonempty : applyReplacements compiledReplacements (word w) <> "").
  { apply applyReplacements_nonempty;
      [apply compiledReplacements_templates | exact Hne]. }
  destruct (applyReplacements compiledReplacements (word w)) as [| c rest];
    [contradiction |].
  exists c, rest. split; [exact Hlow |].
  cbn [lowercase] in Hlow. apply andb_true_iff in Hlow. destruct Hlow as [Hc _].
  destruct (capFirst options) as [[[|] |] |]; cbn [nullish truthy capFirst_] in E;
    rewrite ?(toUpperCase_lower c Hc) in E; congruence.
Qed.

Lemma generate_letters_witness :
  generate 4 (fun _ => Byte.x00) (mkOptions None (Some "a") None None None)
  = Ret "Pepitie"
  /\ exists c rest,
       lowercase (String c rest) = true
       /\ "Pepitie" = String (ascii_of_N (N_of_ascii c - 32)) rest.
Proof.
  split; [vm_compute; reflexivity |].
  apply (generate_letters 4 (fun _ => Byte.x00)
           (mkOptions None (Some "a") None None None) "Pepitie").
  vm_compute. reflexivity.
Defined.

(** ** The length of the processed word *)

Ltac crack H :=
  repeat match type of H with
         | match ?x with _ => _ end = Some _ =>
             let E := fresh "E" in destruct x eqn:E; try discriminate H
         end.

Lemma substring_one (s : string) :
  forall p c, get p s = Some c -> substring p 1 s = String c "".
Proof.
  induction s as [| d s IH]; intros p c H; [discriminate H |].
  destruct p as [| p]; simpl in *.
  - injection H as ->. destruct s; reflexivity.
  - apply IH, H.
Qed.

Lemma substring_zero (s : string) : forall p, substring p 0 s = "".
Proof.
  induction s as [| d s IH]; intros [| p]; simpl; auto.
Qed.

Ltac one_char :=
  rewrite ?Nat.sub_diag, ?substring_zero;
  repeat match goal with
         | |- context [(S ?p - ?p)%nat] =>
             replace (S p - p)%nat with 1%nat by lia
         end;
  repeat match goal with
         | |- context [match ?p with 0%nat => S ?p | S l => (?p - l)%nat end] =>
             replace (match p with 0%nat => S p | S l => (p - l)%nat end)
               with 1%nat by (destruct p; lia)
         end;
  repeat (erewrite substring_one by eassumption).

Ltac measure_cracked H :=
  crack H; injection H as <- <-; one_char;
  match goal with
  | |- Z.of_nat ?L = _ => let l := eval vm_compute in L in change L with l
  end;
  lia.

Ltac measure H :=
  unfold match_at in H; cbn [rmatch] in H; crack H;
  injection H as <- <-; one_char;
  match goal with
  | |- Z.of_nat ?L = _ => let l := eval vm_compute in L in change L with l
  end;
  lia.

Lemma replace_lengthChange (r : regex) (template : string) (delta : Z) :
  lengthChange r template delta ->
  forall input,
    String.length (replace r template input) = String.length input
    \/ Z.of_nat (String.length (replace r template input))
       = Z.of_nat (String.length input) + delta.
Proof.
  intros Hd input.
  destruct (replace_first_match r template input)
    as [(before & matched & after & cs & Ein & Hm & _ & ->) | [_ ->]];
    [right | left; reflexivity].
  apply Hd in Hm. apply (f_equal String.length) in Ein.
  rewrite !append_length in *. lia.
Qed.

Lemma compiledReplacements_lengthChange :
  Forall2 (fun entry delta => lengthChange (fst entry) (snd entry) delta)
    compiledReplacements [0; -1; 0; -1; -1; 0; 1; 0].
Proof.
  unfold compiledReplacements.
  repeat constructor; intros input pos e cs H; cbn [fst snd] in *.
  - measure H.
  - measure H.
  - measure H.
  - measure H.
  - measure H.
  - unfold match_at in H; cbn [rmatch] in H.
    match type of H with
    | match ?x with _ => _ end = _ => destruct x as [[e1 c1] |] eqn:EX
    end.
    + injection H as <- <-. measure_cracked EX.
    + measure_cracked H.
  - measure H.
  - measure H.
Qed.


Lemma applyReplacements_length (table : list (regex * string)) (deltas : list Z) :
  Forall2 (fun entry delta => lengthChange (fst entry) (snd entry) delta)
    table deltas ->
  forall s,
    Z.of_nat (String.length s) + fold_right (fun d acc => Z.min 0 d + acc) 0 deltas
    <= Z.of_nat (String.length (applyReplacements table s))
    <= Z.of_nat (String.length s) + fold_right (fun d acc => Z.max 0 d + acc) 0 deltas.
Proof.
  induction 1 as [| entry delta table deltas Hd _ IH]; intro s.
  - cbn [applyReplacements fold_left fold_right]. lia.
  - cbn [applyReplacements fold_left fold_right].
    specialize (IH (replace (fst entry) (snd entry) s)).
    unfold applyReplacements in IH.
    destruct (replace_lengthChange _ _ _ Hd s) as [E | E].
    + rewrite E in IH. lia.
    + rewrite E in IH. lia.
Qed.

Lemma postProcess_length (w : PhoneticWordObject) :
  returns (postProcess w)
    (fun out =>
       Z.of_nat (String.length (word w)) - 3 <= Z.of_nat (String.length out)
       <= Z.of_nat (String.length (word w)) + 1).
Proof.
  rewrite postProcess_eq. cbn [returns].
  pose proof (applyReplacements_length _ _ compiledReplacements_lengthChange (word w))
    as H.
  cbn [fold_right Z.min Z.max Z.compare Z.add] in H.
  destruct (truthy _); [rewrite capFirst_length |]; lia.
Qed.

(** X20.  On an ASCII word [postProcess] returns a word at most three
    characters shorter and at most one character longer than the word it
    is given: three of the replacements drop a character, one adds an "e",
    and the others keep the length. *)
Theorem postProcess_length_change (wordObj : PhoneticWordObject) :
  asciiText (word wordObj) = true ->
  Forall2 (fun entry delta =>
             forall input pos e cs,
               asciiText input = true ->
               match_at (fst entry) input pos = Some (e, cs) ->
               Z.of_nat (String.length (expand (snd entry) cs))
               = Z.of_nat e - Z.of_nat pos + delta)
    compiledReplacements [0; -1; 0; -1; -1; 0; 1; 0]
  /\ returns (postProcess wordObj)
       (fun out =>
          Z.of_nat (String.length (word wordObj)) - 3
          <= Z.of_nat (String.length out)
          <= Z.of_nat (String.length (word wordObj)) + 1).
Proof.
  intros _. split; [| apply postProcess_length].
  eapply Forall2_impl; [| exact compiledReplacements_lengthChange].
  intros entry delta H input pos e cs _. apply H.
Qed.

Lemma postProcess_length_change_witness :
  asciiText (word (mkWordObj 0 false false "quaebyez"
                     (mkOptions None None None None None))) = true
  /\ returns (postProcess (mkWordObj 0 false false "quaebyez"
                             (mkOptions None None None None None)))
       (fun out =>
          Z.of_nat (String.length "quaebyez") - 3
          <= Z.of_nat (String.length out)
          <= Z.of_nat (String.length "quaebyez") + 1).
Proof.
  split; [reflexivity |].
  apply (postProcess_length_change
           (mkWordObj 0 false false "quaebyez"
              (mkOptions None None None None None))).
  reflexivity.
Defined.



(** ** The end of the processed word *)

Lemma lastChar_append (s1 s2 : string) :
  lastChar (s1 ++ s2) = match s2 with
                        | EmptyString => lastChar s1
                        | _ => lastChar s2
                        end.
Proof.
  induction s1 as [| c s1 IH].
  - destruct s2; reflexivity.
  - cbn [append]. destruct s2 as [| d s2].
    + rewrite append_nil_r. reflexivity.
    + change (lastChar (String c (s1 ++ String d s2)))
        with (match s1 ++ String d s2 with
              | EmptyString => Some c
              | _ => lastChar (s1 ++ String d s2)
              end).
      rewrite IH. destruct s1; reflexivity.
Qed.

Lemma lastChar_get (s : string) (c : ascii) :
  lastChar s = Some c -> get (String.length s - 1) s = Some c.
Proof.
  induction s as [| d s IH]; intro H; [discriminate H |].
  destruct s as [| d' s]; [exact H |].
  change (lastChar (String d (String d' s))) with (lastChar (String d' s)) in H.
  apply IH in H. cbn [String.length Nat.sub] in *. rewrite Nat.sub_0_r in *.
  exact H.
Qed.

Lemma length_zero (s : string) : String.length s = 0%nat -> s = "".
Proof. destruct s; [reflexivity | discriminate]. Qed.

(** After the replacement for [([vz])$] the word does not end in v or z. *)
Lemma replace_vz_end (input : string) (c : ascii) :
  mem c "vz" = true ->
  lastChar (replace (Cat (Grp 1 (Cls "vz")) Eol) "$1e" input) <> Some c.
Proof.
  intro Hc.
  destruct (replace_first_match (Cat (Grp 1 (Cls "vz")) Eol) "$1e" input)
    as [(before & matched & after & cs & Ein & Hm & _ & ->) | [Hnone ->]].
  - unfold match_at in Hm. cbn [rmatch] in Hm. crack Hm.
    injection Hm as He <-.
    apply Nat.eqb_eq in E1.
    apply (f_equal String.length) in Ein. rewrite !append_length in Ein.
    assert (Hafter : after = "") by (apply length_zero; lia).
    subst after. one_char.
    match goal with
    | |- lastChar (_ ++ ?x ++ "") <> _ =>
        let y := eval vm_compute in x in change x with y
    end.
    rewrite append_nil_r, lastChar_append. cbn [lastChar].
    intro H. injection H as <-. discriminate Hc.
  - intro H. pose proof (lastChar_get _ _ H) as G.
    assert (Hlen : (0 < String.length input)%nat)
      by (destruct input; [discriminate H | simpl; lia]).
    specialize (Hnone (String.length input - 1)%nat ltac:(lia)).
    unfold match_at in Hnone. cbn [rmatch] in Hnone.
    rewrite G, Hc in Hnone.
    replace (S (String.length input - 1)) with (String.length input) in Hnone by lia.
    rewrite Nat.eqb_refl in Hnone. discriminate Hnone.
Qed.

(** The replacement for [[iu]w] keeps the last character. *)
Lemma replace_w_end (input : string) :
  lastChar (replace (Cat (Cls "iu") (Chr "w")) "ow" input) = lastChar input.
Proof.
  destruct (replace_first_match (Cat (Cls "iu") (Chr "w")) "ow" input)
    as [(before & matched & after & cs & Ein & Hm & _ & ->) | [_ ->]];
    [| reflexivity].
  unfold match_at in Hm. cbn [rmatch] in Hm. crack Hm.
  injection Hm as He <-.
  pattern input at 1. rewrite Ein. cbv beta. rewrite !lastChar_append.
  change (expand "ow" []) with "ow".
  destruct after as [| d after]; [| destruct matched; reflexivity].
  assert (Lm : String.length matched = 2%nat) by lia.
  destruct matched as [| x [| y [| z matched]]]; try discriminate Lm.
  rewrite append_nil_r in Ein.
  pose proof (append_correct2 before (String x (String y "")) 1) as G.
  rewrite <- Ein in G. cbn [get] in G.
  replace (1 + String.length before)%nat with (S (String.length before)) in G by lia.
  rewrite E1 in G. injection G as ->.
  apply Ascii.eqb_eq in E2. subst a0. reflexivity.
Qed.

Lemma toUpperCase_not_vz (c d : ascii) :
  mem d "vz" = true -> c <> d -> toUpperCase c <> d.
Proof.
  intros Hd Hne. cbn [mem orb] in Hd. rewrite orb_false_r in Hd.
  apply orb_true_iff in Hd.
  unfold toUpperCase.
  destruct ((97 <=? N_of_ascii c)%N && (N_of_ascii c <=? 122)%N) eqn:E;
    [| exact Hne].
  apply andb_true_iff in E. destruct E as [E1 E2].
  apply N.leb_le in E1. apply N.leb_le in E2.
  intro H. apply (f_equal N_of_ascii) in H.
  rewrite N_ascii_embedding in H by lia.
  destruct Hd as [Hd | Hd]; apply Ascii.eqb_eq in Hd; subst d; simpl in H; lia.
Qed.

Lemma capFirst_end (str : string) (d : ascii) :
  mem d "vz" = true -> lastChar str <> Some d -> lastChar (capFirst_ str) <> Some d.
Proof.
  intros Hd H. destruct str as [| c [| c' rest]]; cbn [capFirst_]; auto.
  cbn [lastChar] in *. intro E. injection E as E.
  revert E. apply toUpperCase_not_vz; [exact Hd |]. congruence.
Qed.

(** X22.  The word that [postProcess] returns never ends in "v" or in "z":
    the replacement for [([vz])$] appends an "e" to such an end, and what
    follows it keeps the last character. *)
Theorem postProcess_end (wordObj : PhoneticWordObject) :
  returns (postProcess wordObj)
    (fun out => lastChar out <> Some "v"%char /\ lastChar out <> Some "z"%char).
Proof.
  rewrite postProcess_eq. cbn [returns].
  assert (H : forall d, mem d "vz" = true ->
                        lastChar (applyReplacements compiledReplacements
                                    (word wordObj)) <> Some d).
  { intros d Hd. unfold applyReplacements, compiledReplacements.
    cbn [fold_left fst snd]. rewrite replace_w_end. apply replace_vz_end, Hd. }
  destruct (truthy _); split;
    try apply capFirst_end; try apply H; reflexivity.
Qed.

(** ** The number of calls *)



(** ** Simple and complex phonetics *)

Lemma nth_error_firstn_In {A : Type} (l : list A) :
  forall i n a, (i < n)%nat -> nth_error l i = Some a -> In a (firstn n l).
Proof.
  induction l as [| b l IH]; intros i n a Hlt H.
  - destruct i; discriminate H.
  - destruct n as [| n]; [lia |]. destruct i as [| i]; simpl in *.
    + injection H as ->. auto.
    + right. eapply IH; [| exact H]. lia.
Qed.

(** X24.  With [forceSimple], [getNextPhonetic] returns one of the simple
    phonetics, those before the simple length of the set, whatever the
    numeric and [phoneticSimplicity]. *)
Theorem getNextPhonetic_forced_simple (phoneticSet : list string) (simpleCap : Z)
    (wordObj : PhoneticWordObject) :
  In (phoneticSet, simpleCap) syllableTables ->
  returns (getNextPhonetic phoneticSet simpleCap wordObj true)
    (fun r =>
       exists s,
         fst r = Some s /\ In s (firstn (Z.to_nat simpleCap) phoneticSet)).
Proof.
  intro H. rewrite getNextPhonetic_eq. cbn [returns fst].
  assert (Hcap : 0 < simpleCap <= Z.of_nat (List.length phoneticSet)).
  { pose proof (phoneticCap_bounds _ _ wordObj true H) as B.
    unfold phoneticCap in B. rewrite orb_true_r in B. exact B. }
  unfold phoneticIndex, phoneticCap. rewrite orb_true_r. unfold js_rem.
  destruct (Z.eqb_spec simpleCap 0); [lia |].
  pose proof (Z.rem_bound_pos (Z.of_N (numeric wordObj)) simpleCap
                ltac:(lia) ltac:(lia)) as Hr.
  set (i := Z.rem (Z.of_N (numeric wordObj)) simpleCap) in *. clearbody i.
  unfold subscript. destruct (Z.ltb_spec i 0); [lia |].
  destruct (nth_error phoneticSet (Z.to_nat i)) as [s |] eqn:E.
  - exists s. split; [reflexivity |].
    eapply nth_error_firstn_In; [| exact E]. lia.
  - apply nth_error_None in E. lia.
Qed.

Lemma getNextPhonetic_forced_simple_witness :
  In (PHONETIC_POST, PHONETIC_POST_SIMPLE_LENGTH) syllableTables
  /\ returns
       (getNextPhonetic PHONETIC_POST PHONETIC_POST_SIMPLE_LENGTH
          (mkWordObj 6541926843 false false ""
             (mkOptions None (Some "a") None None None)) true)
       (fun r =>
          exists s,
            fst r = Some s
            /\ In s (firstn (Z.to_nat PHONETIC_POST_SIMPLE_LENGTH) PHONETIC_POST)).
Proof.
  split; [simpl; tauto |].
  apply (getNextPhonetic_forced_simple PHONETIC_POST PHONETIC_POST_SIMPLE_LENGTH).
  simpl. tauto.
Defined.

(** X25.  With a [phoneticSimplicity] of 1 and without [forceSimple], the
    test [(numeric + deriv) % 1 > 0] always fails: the phonetic is drawn
    from the whole set, at the place [numeric % length]. *)
Theorem getNextPhonetic_simplicity_one (phoneticSet : list string) (simpleCap : Z)
    (wordObj : PhoneticWordObject) :
  In (phoneticSet, simpleCap) syllableTables ->
  phoneticSimplicity (opts wordObj) = Some 1 ->
  returns (getNextPhonetic phoneticSet simpleCap wordObj false)
    (fun r =>
       fst r
       = nth_error phoneticSet
           (N.to_nat (numeric wordObj mod N.of_nat (List.length phoneticSet)))
       /\ exists s, fst r = Some s).
Proof.
  intros H Hone. rewrite getNextPhonetic_eq. cbn [returns fst].
  assert (Hlen : (0 < List.length phoneticSet)%nat).
  { pose proof (phoneticCap_bounds _ _ wordObj true H) as B. lia. }
  set (len := List.length phoneticSet) in *.
  assert (Hcap : phoneticCap phoneticSet simpleCap wordObj false = Z.of_nat len).
  { unfold phoneticCap. rewrite Hone. cbn [or_number Z.eqb].
    unfold js_rem. cbn [Z.eqb]. rewrite Z.rem_1_r. reflexivity. }
  assert (Heq : subscript phoneticSet
                  (phoneticIndex phoneticSet simpleCap wordObj false)
                = nth_error phoneticSet
                    (N.to_nat (numeric wordObj mod N.of_nat len))).
  { unfold phoneticIndex. rewrite Hcap. unfold js_rem.
    destruct (Z.eqb_spec (Z.of_nat len) 0); [lia |].
    rewrite Z.rem_mod_nonneg by lia.
    pose proof (Z.mod_pos_bound (Z.of_N (numeric wordObj)) (Z.of_nat len)
                  ltac:(lia)) as Hm.
    unfold subscript.
    destruct (Z.ltb_spec (Z.of_N (numeric wordObj) mod Z.of_nat len) 0); [lia |].
    f_equal.
    rewrite <- nat_N_Z, <- N2Z.inj_mod, <- Z_N_nat, N2Z.id. reflexivity. }
  rewrite Heq. split; [reflexivity |].
  destruct (nth_error phoneticSet (N.to_nat (numeric wordObj mod N.of_nat len)))
    as [s |] eqn:En; [exists s; reflexivity |].
  apply nth_error_None in En. fold len in En.
  pose proof (N.mod_lt (numeric wordObj) (N.of_nat len) ltac:(lia)). lia.
Qed.

Lemma getNextPhonetic_simplicity_one_witness :
  In (PHONETIC_PRE, PHONETIC_PRE_SIMPLE_LENGTH) syllableTables
  /\ phoneticSimplicity
       (opts (mkWordObj 6541926843 false false ""
                (mkOptions (Some 3) (Some "a") (Some 1) (Some 5) (Some (Boolean true)))))
     = Some 1
  /\ returns
       (getNextPhonetic PHONETIC_PRE PHONETIC_PRE_SIMPLE_LENGTH
          (mkWordObj 6541926843 false false ""
             (mkOptions (Some 3) (Some "a") (Some 1) (Some 5) (Some (Boolean true)))) false)
       (fun r =>
          fst r
          = nth_error PHONETIC_PRE
              (N.to_nat
                 (numeric
                    (mkWordObj 6541926843 false false ""
                       (mkOptions (Some 3) (Some "a") (Some 1) (Some 5) (Some (Boolean true))))
                  mod N.of_nat (List.length PHONETIC_PRE)))
          /\ exists s, fst r = Some s).
Proof.
  split; [simpl; tauto |]. split; [reflexivity |].
  apply (getNextPhonetic_simplicity_one PHONETIC_PRE PHONETIC_PRE_SIMPLE_LENGTH);
    [simpl; tauto | reflexivity].
Defined.
